(** * RoadBot: the traffic-feed normaliser and the intent router

    A shallow embedding of the two server modules of RoadBot,

      - [anwb.ts]  ([classify], [toClean], [fetchIncidents] and its cache),
      - [bot.ts]   ([preprocessQuery], [isIncidentOnRoute], [getReply]),

    together with the JavaScript primitives they rely on, followed by the
    properties of the design document that concern them.

    Conventions of the model.
      - Strings are byte strings ([String.string]).  [toLowerCase],
        [toUpperCase] and [trim] act on the ASCII range, where they do what
        JavaScript does; a statement that rests on how they treat other
        characters says that its strings are ASCII.
      - [localeCompare] is the collation of the locale the server runs in:
        it is not lexicographic comparison, and it belongs to the
        environment.  What is assumed of it, where a statement needs it, is
        that it is a consistent comparator.
      - The payload of the feed is taken as parsed, in the layout the
        program reads: road entries, segments, three lists of item objects.
        A body that is not JSON and a payload of another layout are outside
        the model, so the statements do not enumerate the errors a call can end in.
      - JSON numbers are whole numbers ([Z]); the feed reports delays in
        whole seconds.  [Math.round] is taken on exact rationals.
      - Asynchronous code is sequential code over an explicit [World]
        (clock, cache slot, counters, trace of model calls); [throw] is the
        [Threw] outcome.  What the outside world answers (the feed, the
        language model, the locale, the random source) is an [Env]. *)

From Stdlib Require Import ZArith QArith Qround Lia List Ascii String.
From Stdlib Require Import DecimalString Sorted OrderedTypeEx.
From stdpp Require Import base gmap strings list.

Open Scope string_scope.
Open Scope list_scope.
Open Scope Z_scope.

(** ** JavaScript string primitives *)

Module JS.

Definition code (c : ascii) : nat := nat_of_ascii c.

(** White space of [String.prototype.trim] and of the class [\s]. *)
Definition isSpace (c : ascii) : bool :=
  ((9 <=? code c) && (code c <=? 13) || (code c =? 32))%nat.

Definition isUpper (c : ascii) : bool := ((65 <=? code c) && (code c <=? 90))%nat.
Definition isLower (c : ascii) : bool := ((97 <=? code c) && (code c <=? 122))%nat.
Definition isDigit (c : ascii) : bool := ((48 <=? code c) && (code c <=? 57))%nat.

(** Word characters of the regular-expression assertion [\b]. *)
Definition isWord (c : ascii) : bool :=
  isUpper c || isLower c || isDigit c || (code c =? 95)%nat.

Definition lower (c : ascii) : ascii :=
  if isUpper c then ascii_of_nat (code c + 32) else c.
Definition upper (c : ascii) : ascii :=
  if isLower c then ascii_of_nat (code c - 32) else c.

Fixpoint mapChars (f : ascii -> ascii) (s : string) : string :=
  match s with
  | EmptyString => EmptyString
  | String c s' => String (f c) (mapChars f s')
  end.

Definition toLowerCase : string -> string := mapChars lower.
Definition toUpperCase : string -> string := mapChars upper.

Fixpoint trimStart (s : string) : string :=
  match s with
  | EmptyString => EmptyString
  | String c s' => if isSpace c then trimStart s' else s
  end.

Fixpoint trimEnd (s : string) : string :=
  match s with
  | EmptyString => EmptyString
  | String c s' =>
      match trimEnd s' with
      | EmptyString => if isSpace c then EmptyString else String c EmptyString
      | t => String c t
      end
  end.

Definition trim (s : string) : string := trimEnd (trimStart s).

(** A comparator that [Array.prototype.sort] can rely on (a consistent
    comparator): the order [cmp a b <= 0] is total and transitive. *)
Record consistent {A : Type} (cmp : A -> A -> Z) : Prop := {
  consistent_total : forall a b, cmp a b <= 0 \/ cmp b a <= 0;
  consistent_trans : forall a b c, cmp a b <= 0 -> cmp b c <= 0 -> cmp a c <= 0
}.

(** [Array.prototype.sort(cmp)]: a stable sort; with a consistent
    comparator its result is the stable sorted arrangement, computed here
    by insertion from the right. *)
Section Sort.
Context {A : Type} (cmp : A -> A -> Z).

Fixpoint insert (x : A) (l : list A) : list A :=
  match l with
  | [] => [x]
  | y :: l' => if cmp x y <=? 0 then x :: y :: l' else y :: insert x l'
  end.

Definition sort (l : list A) : list A := fold_right insert [] l.
End Sort.

(** [Math.round]: the nearest integer, halves towards plus infinity. *)
Definition Math_round (q : Q) : Z := Qfloor (q + (1 # 2)).

(** [String(n)] for a whole number. *)
Definition showZ (n : Z) : string := NilZero.string_of_int (Z.to_int n).

End JS.

(** ** Regular expressions

    A backtracking matcher for the fragment the program uses: literals,
    [\s], sequence, alternation, [?], [+] on a class, [\b] and [^], with
    the [i] flag.  [exec] lists the ways a pattern can match at the current
    position, in the order the JavaScript matcher tries them. *)

Module RegExp.

Inductive re : Type :=
| Eps
| Chr (c : ascii)
| Space
| SpacePlus
| Seq (r1 r2 : re)
| Alt (r1 r2 : re)
| Opt (r : re)
| WordB
| Bol.

(** A literal word. *)
Fixpoint lit (w : string) : re :=
  match w with
  | EmptyString => Eps
  | String c w' => Seq (Chr c) (lit w')
  end.

(** [w1|w2|...]; the empty alternation is never written. *)
Fixpoint alts (rs : list re) : re :=
  match rs with
  | [] => Eps
  | [r] => r
  | r :: rs' => Alt r (alts rs')
  end.

Definition words (ws : list string) : re := alts (map lit ws).

(** A position in the subject: the character just before it, and the rest. *)
Definition pos : Type := option ascii * string.

Definition sameChar (ignoreCase : bool) (c d : ascii) : bool :=
  if ignoreCase then Ascii.eqb (JS.lower c) (JS.lower d) else Ascii.eqb c d.

Definition wordBefore (p : pos) : bool :=
  match fst p with Some c => JS.isWord c | None => false end.
Definition wordAfter (p : pos) : bool :=
  match snd p with String c _ => JS.isWord c | EmptyString => false end.

Fixpoint spaces (prev : option ascii) (s : string) : list pos :=
  match s with
  | String c s' => if JS.isSpace c then spaces (Some c) s' ++ [(prev, s)] else [(prev, s)]
  | EmptyString => [(prev, s)]
  end.

Fixpoint exec (ignoreCase : bool) (r : re) (p : pos) : list pos :=
  match r with
  | Eps => [p]
  | Chr c =>
      match snd p with
      | String d s' => if sameChar ignoreCase c d then [(Some d, s')] else []
      | EmptyString => []
      end
  | Space =>
      match snd p with
      | String d s' => if JS.isSpace d then [(Some d, s')] else []
      | EmptyString => []
      end
  | SpacePlus =>
      match snd p with
      | String d s' => if JS.isSpace d then spaces (Some d) s' else []
      | EmptyString => []
      end
  | Seq r1 r2 => flat_map (exec ignoreCase r2) (exec ignoreCase r1 p)
  | Alt r1 r2 => exec ignoreCase r1 p ++ exec ignoreCase r2 p
  | Opt r1 => exec ignoreCase r1 p ++ [p]
  | WordB => if xorb (wordBefore p) (wordAfter p) then [p] else []
  | Bol => match fst p with None => [p] | Some _ => [] end
  end.

Definition matchesAt (ignoreCase : bool) (r : re) (p : pos) : bool :=
  match exec ignoreCase r p with [] => false | _ :: _ => true end.

Fixpoint search (ignoreCase : bool) (r : re) (prev : option ascii) (s : string) : bool :=
  matchesAt ignoreCase r (prev, s) ||
  match s with
  | String c s' => search ignoreCase r (Some c) s'
  | EmptyString => false
  end.

(** [re.test(s)] for a pattern without the [g] flag. *)
Definition test (ignoreCase : bool) (r : re) (s : string) : bool :=
  search ignoreCase r None s.

(** [s.replace(re, by)] for a pattern with the [g] flag.  [skip] counts
    the characters of the current match that are still to be dropped. *)
Fixpoint replaceFrom (ignoreCase : bool) (r : re) (by_ : string)
    (prev : option ascii) (s : string) (skip : nat) : string :=
  match s with
  | EmptyString =>
      match skip with
      | O => if matchesAt ignoreCase r (prev, s) then by_ else EmptyString
      | S _ => EmptyString
      end
  | String c s' =>
      match skip with
      | S k => replaceFrom ignoreCase r by_ (Some c) s' k
      | O =>
          match exec ignoreCase r (prev, s) with
          | [] => String c (replaceFrom ignoreCase r by_ (Some c) s' 0)
          | (_, rest) :: _ =>
              match (String.length s - String.length rest)%nat with
              | O => by_ +:+ String c (replaceFrom ignoreCase r by_ (Some c) s' 0)
              | S k => by_ +:+ replaceFrom ignoreCase r by_ (Some c) s' k
              end
          end
      end
  end.

Definition replaceAll (ignoreCase : bool) (r : re) (by_ : string) (s : string) : string :=
  replaceFrom ignoreCase r by_ None s 0.

End RegExp.

(** ** JSON scalars

    The value of a field of a raw feed item.  [JUndefined] is a missing
    field. *)

Inductive jsval : Type :=
| JUndefined
| JNull
| JBool (b : bool)
| JNum (n : Z)
| JStr (s : string).

Definition nullish (v : jsval) : bool :=
  match v with
  | JUndefined | JNull => true
  | _ => false
  end.

(** [a ?? b] *)
Definition nullishOr (a b : jsval) : jsval := if nullish a then b else a.
Infix "??" := nullishOr (at level 45, right associativity).

(** Truthiness, as in [a && b] and [a ? b : c]. *)
Definition truthy (v : jsval) : bool :=
  match v with
  | JUndefined | JNull => false
  | JBool b => b
  | JNum n => negb (n =? 0)
  | JStr s => negb (String.eqb s "")
  end.

(** The conversion of template literals, of [String(v)] and of the argument
    of [RegExp.prototype.test]. *)
Definition ToString (v : jsval) : string :=
  match v with
  | JUndefined => "undefined"
  | JNull => "null"
  | JBool true => "true"
  | JBool false => "false"
  | JNum n => JS.showZ n
  | JStr s => s
  end.

(** [xs ?? []] for an optional array. *)
Definition orEmpty {A : Type} (xs : option (list A)) : list A := default [] xs.

(** ** The upstream feed: roads, segments, three lists of items each *)

Module Raw.
Record t : Type := mk {
  id : jsval;
  msgNr : jsval;
  location : jsval;
  from : jsval;
  to : jsval;
  reason : jsval;
  description : jsval;
  start : jsval;
  stop : jsval;
  timestamp : jsval;
  delay : option Z  (* whole seconds; [None] when missing or null *)
}.

Definition empty : t :=
  mk JUndefined JUndefined JUndefined JUndefined JUndefined JUndefined
     JUndefined JUndefined JUndefined JUndefined None.

(** [{ ...raw, location: v }] *)
Definition withLocation (v : jsval) (raw : t) : t :=
  mk (id raw) (msgNr raw) v (from raw) (to raw) (reason raw)
     (description raw) (start raw) (stop raw) (timestamp raw) (delay raw).
End Raw.

Module Segment.
Record t : Type := mk {
  start : jsval;
  end_ : jsval;
  jams : option (list Raw.t);
  roadworks : option (list Raw.t);
  radars : option (list Raw.t)
}.
End Segment.

Module RoadEntry.
Record t : Type := mk {
  road : jsval;
  segments : option (list Segment.t)
}.
End RoadEntry.

Module Feed.
Record t : Type := mk { roads : option (list RoadEntry.t) }.
End Feed.

(** ** The canonical incident ([CleanIncident]) *)

Inductive Category : Type :=
| accident | construction | congestion | obstruction | weather | other.

Inductive Status : Type := open | closed.

Inductive Bucket : Type := trafficJams | roadWorks | radars.

Module Clean.
Record t : Type := mk {
  id : string;
  road : string;
  location : string;
  category : Category;
  status : Status;
  closure : option string;
  delay : option Z;      (* minutes *)
  startISO : option string
}.
End Clean.

#[global] Instance Category_eq_dec : EqDecision Category.
Proof. solve_decision. Defined.
#[global] Instance Status_eq_dec : EqDecision Status.
Proof. solve_decision. Defined.
#[global] Instance Bucket_eq_dec : EqDecision Bucket.
Proof. solve_decision. Defined.
#[global] Instance Clean_eq_dec : EqDecision Clean.t.
Proof. solve_decision. Defined.

(** The member of the enum as the string the program compares it with. *)
Definition categoryName (c : Category) : string :=
  match c with
  | accident => "accident"
  | construction => "construction"
  | congestion => "congestion"
  | obstruction => "obstruction"
  | weather => "weather"
  | other => "other"
  end.

(** ** Classify and clean *)

Definition collisionRE : RegExp.re := RegExp.words ["ongeval"; "botsing"; "crash"].
Definition weatherRE : RegExp.re := RegExp.words ["mist"; "gladheid"; "wateroverlast"; "storm"].
Definition obstacleRE : RegExp.re := RegExp.words ["obstakel"; "stilgevallen"; "verlies van lading"].
Definition closedRE : RegExp.re := RegExp.words ["dicht"].

(** The text [classify] inspects. *)
Definition classifyText (raw : Raw.t) : string :=
  JS.toLowerCase
    (ToString (Raw.reason raw ?? JStr "") +:+ " " +:+ ToString (Raw.description raw ?? JStr "")).

Definition classify (raw : Raw.t) (bucket : Bucket) : Category :=
  let txt := classifyText raw in
  if decide (bucket = roadWorks) then construction
  else if RegExp.test false collisionRE txt then accident
  else if RegExp.test false weatherRE txt then weather
  else if RegExp.test false obstacleRE txt then obstruction
  else if decide (bucket = trafficJams) then congestion
  else other.

(** The object handed to [CleanIncident.parse], before validation. *)
Module Candidate.
Record t : Type := mk {
  id : jsval;
  road : jsval;
  location : jsval;
  category : Category;
  status : Status;
  closure : option string;
  delay : option Z;
  startISO : jsval
}.
End Candidate.

Inductive Exn : Type :=
| ZodError
| HttpError (status : Z) (message : string)
| FetchFailed.

Inductive Outcome (A : Type) : Type :=
| Returned (a : A)
| Threw (e : Exn).
Arguments Returned {A} a.
Arguments Threw {A} e.

(** [z.string()] accepts strings only; [z.string().optional()] also a
    missing value.  The enums and the optional number hold by typing. *)
Definition CleanIncident_parse (o : Candidate.t) : Outcome Clean.t :=
  match Candidate.id o, Candidate.road o, Candidate.location o with
  | JStr i, JStr r, JStr l =>
      match Candidate.startISO o with
      | JUndefined =>
          Returned (Clean.mk i r l (Candidate.category o) (Candidate.status o)
                      (Candidate.closure o) (Candidate.delay o) None)
      | JStr s =>
          Returned (Clean.mk i r l (Candidate.category o) (Candidate.status o)
                      (Candidate.closure o) (Candidate.delay o) (Some s))
      | _ => Threw ZodError
      end
  | _, _, _ => Threw ZodError
  end.

(** ** The language-model module, seen from its callers

    [llm.ts] exports four capabilities.  Each one catches its own failures
    and always resolves, so a call is a value supplied by the environment;
    the world records that the call was made, and with what. *)

Inductive Role : Type := user | assistant.

Record TMessage : Type := { role : Role; content : string }.

(** The object [extractEntities] resolves to: every key is optional. *)
Record Entities : Type := {
  roads : option (list string);
  categories : option (list string);
  origin : option string;
  destination : option string
}.

Inductive ModelCall : Type :=
| ExtractEntities (query : string) (history : list TMessage)
| AnswerFromIncidents (userQuery : string) (incidents : list Clean.t)
    (history : list TMessage) (entities : Entities)
| SummarizeIncidentsForRoute (incidents : list Clean.t) (origin destination : string)
| NonTrafficReply (query : string) (history : list TMessage).

(** ** World and environment *)

(** The module-level [cache] of [anwb.ts]. *)
Record CacheEntry : Type := { ts : Z; data : list Clean.t }.

Record World : Type := {
  now : Z;                     (* what [Date.now()] reads, in milliseconds *)
  cache : option CacheEntry;
  fetches : nat;               (* requests sent to the feed so far *)
  uuids : nat;                 (* tokens drawn from [crypto.randomUUID] so far *)
  calls : list ModelCall       (* model capabilities invoked so far, oldest first *)
}.

Inductive Response : Type :=
| NetworkFailure               (* [fetch] rejects *)
| NotOk                        (* [res.ok] is false *)
| Ok (json : Feed.t).

Record Env : Type := {
  upstream : nat -> Z * Response;   (* the n-th request: how long it takes, what comes back *)
  randomUUID : nat -> string;       (* the n-th token *)
  toLocaleString : jsval -> string; (* [new Date(v).toLocaleString('nl-NL', ...)] *)
  localeCompare : string -> string -> Z;
                                    (* [a.localeCompare(b)]: negative, zero or positive *)
  llmEntities : string -> list TMessage -> Entities;
  llmAnswer : string -> list Clean.t -> list TMessage -> Entities -> string;
  llmRoute : list Clean.t -> string -> string -> string;
  llmChat : string -> list TMessage -> string
}.

(** Computations that read and write the world and may throw. *)
Definition M (A : Type) : Type := World -> Outcome A * World.

Definition ret {A : Type} (a : A) : M A := fun w => (Returned a, w).

Definition throw {A : Type} (e : Exn) : M A := fun w => (Threw e, w).

Definition bind {A B : Type} (m : M A) (k : A -> M B) : M B :=
  fun w =>
    match m w with
    | (Returned a, w') => k a w'
    | (Threw e, w') => (Threw e, w')
    end.

Declare Scope js_scope.
Delimit Scope js_scope with js.
Notation "x <- m ;; k" := (bind m (fun x => k))
  (at level 100, m at next level, right associativity) : js_scope.
Open Scope js_scope.

(** [for (const x of xs) body], with the variables the body updates threaded
    through as [acc]. *)
Fixpoint for_of {A S : Type} (xs : list A) (body : A -> S -> M S) (acc : S) : M S :=
  match xs with
  | [] => ret acc
  | x :: xs' => acc' <- body x acc ;; for_of xs' body acc'
  end.

Definition Date_now : M Z := fun w => (Returned (now w), w).

Definition crypto_randomUUID (E : Env) : M string :=
  fun w =>
    (Returned (randomUUID E (uuids w)),
     {| now := now w; cache := cache w; fetches := fetches w;
        uuids := S (uuids w); calls := calls w |}).

Definition readCache : M (option CacheEntry) := fun w => (Returned (cache w), w).

Definition writeCache (c : CacheEntry) : M unit :=
  fun w =>
    (Returned tt,
     {| now := now w; cache := Some c; fetches := fetches w;
        uuids := uuids w; calls := calls w |}).

(** [await fetch(url)]: one more request; the clock moves on while it is
    pending. *)
Definition fetch (E : Env) : M Response :=
  fun w =>
    let '(took, res) := upstream E (fetches w) in
    let w' := {| now := now w + took; cache := cache w; fetches := S (fetches w);
                 uuids := uuids w; calls := calls w |} in
    match res with
    | NetworkFailure => (Threw FetchFailed, w')
    | _ => (Returned res, w')
    end.

(** ** [toClean] *)

(** [raw.id ?? raw.msgNr ?? crypto.randomUUID()]; the token is drawn only
    when both are nullish. *)
Definition cleanId (E : Env) (raw : Raw.t) : M jsval :=
  let known := Raw.id raw ?? Raw.msgNr raw in
  if nullish known then (u <- crypto_randomUUID E ;; ret (JStr u)) else ret known.

(** [raw.start && raw.stop ? `${fmt(raw.start)} – ${fmt(raw.stop)}` : undefined] *)
Definition cleanClosure (E : Env) (raw : Raw.t) : option string :=
  if truthy (Raw.start raw) && truthy (Raw.stop raw)
  then Some (toLocaleString E (Raw.start raw) +:+ " – " +:+ toLocaleString E (Raw.stop raw))
  else None.

(** [raw.delay ? Math.round(raw.delay / 60) : undefined] *)
Definition cleanDelay (raw : Raw.t) : option Z :=
  match Raw.delay raw with
  | Some d => if d =? 0 then None else Some (JS.Math_round (d # 60))
  | None => None
  end.

(** [raw.location ?? `${road} ${raw.from ?? ''}→${raw.to ?? ''}`.trim()] *)
Definition cleanLocation (raw : Raw.t) (road : jsval) : jsval :=
  Raw.location raw ??
    JStr (JS.trim (ToString road +:+ " " +:+ ToString (Raw.from raw ?? JStr "")
                   +:+ "→" +:+ ToString (Raw.to raw ?? JStr ""))).

Definition toClean (E : Env) (raw : Raw.t) (bucket : Bucket) (road : jsval) : M Clean.t :=
  let closed_ :=
    RegExp.test false closedRE (ToString (Raw.reason raw ?? Raw.description raw ?? JStr "")) in
  let closure := cleanClosure E raw in
  i <- cleanId E raw ;;
  fun w =>
    (CleanIncident_parse
       {| Candidate.id := JStr (ToString i);
          Candidate.road := road;
          Candidate.location := cleanLocation raw road;
          Candidate.category := classify raw bucket;
          Candidate.status := if closed_ then closed else open;
          Candidate.closure := closure;
          Candidate.delay := cleanDelay raw;
          Candidate.startISO := Raw.start raw ?? Raw.timestamp raw ?? JUndefined |},
     w).

(** ** [fetchIncidents] *)

(** [`${road} ${segmentStart}→${segmentEnd}`] *)
Definition segmentLocation (road segmentStart segmentEnd : jsval) : jsval :=
  JStr (ToString road +:+ " " +:+ ToString segmentStart +:+ "→" +:+ ToString segmentEnd).

(** One of the three inner loops: [clean.push(toClean({...item, location: ...}, bucket, road))]. *)
Definition pushItems (E : Env) (bucket : Bucket) (road segmentStart segmentEnd : jsval)
    (items : option (list Raw.t)) (clean : list Clean.t) : M (list Clean.t) :=
  for_of (orEmpty items)
    (fun item (clean : list Clean.t) =>
       c <- toClean E
              (Raw.withLocation
                 (Raw.location item ?? segmentLocation road segmentStart segmentEnd) item)
              bucket road ;;
       ret (clean ++ [c]))
    clean.

(** The walk over roads, segments and the three lists of each segment. *)
Definition flatten (E : Env) (json : Feed.t) : M (list Clean.t) :=
  for_of (orEmpty (Feed.roads json))
    (fun roadEntry (clean : list Clean.t) =>
       let road := RoadEntry.road roadEntry in
       for_of (orEmpty (RoadEntry.segments roadEntry))
         (fun segment (clean : list Clean.t) =>
            let segmentStart := Segment.start segment ?? JStr "" in
            let segmentEnd := Segment.end_ segment ?? JStr "" in
            clean <- pushItems E trafficJams road segmentStart segmentEnd
                       (Segment.jams segment) clean ;;
            clean <- pushItems E roadWorks road segmentStart segmentEnd
                       (Segment.roadworks segment) clean ;;
            pushItems E radars road segmentStart segmentEnd
              (Segment.radars segment) clean)
         clean)
    [].

(** [(a, b) => (b.startISO ?? '').localeCompare(a.startISO ?? '')] *)
Definition byStartDesc (E : Env) (a b : Clean.t) : Z :=
  localeCompare E (default "" (Clean.startISO b)) (default "" (Clean.startISO a)).

(** Flatten, then sort: what [fetchIncidents] does with a payload. *)
Definition normalize (E : Env) (json : Feed.t) : M (list Clean.t) :=
  clean <- flatten E json ;;
  ret (JS.sort (byStartDesc E) clean).

(** The rest of [fetchIncidents], taken when no fresh entry is cached:
    request the feed, normalise the payload, store it, return it. *)
Definition refresh (E : Env) : M (list Clean.t) :=
  res <- fetch E ;;
  match res with
  | Ok json =>
      clean <- normalize E json ;;
      t <- Date_now ;;
      _ <- writeCache {| ts := t; data := clean |} ;;
      ret clean
  | _ => throw (HttpError 502 "ANWB feed error")
  end.

Definition fetchIncidents (E : Env) : M (list Clean.t) :=
  c <- readCache ;;
  t <- Date_now ;;
  match c with
  | Some e => if t - ts e <? 60000 then ret (data e) else refresh E
  | None => refresh E
  end.

(** ** [bot.ts] *)

Definition seqs (rs : list RegExp.re) : RegExp.re := fold_right RegExp.Seq RegExp.Eps rs.

(** [\b r \b] *)
Definition wholeWord (r : RegExp.re) : RegExp.re := seqs [RegExp.WordB; r; RegExp.WordB].

(** [/^(hi|hello|hey|hallo|good\s(morning|afternoon|evening))\b/i] *)
Definition greetingRE : RegExp.re :=
  seqs [RegExp.Bol;
        RegExp.alts
          [RegExp.lit "hi"; RegExp.lit "hello"; RegExp.lit "hey"; RegExp.lit "hallo";
           seqs [RegExp.lit "good"; RegExp.Space;
                 RegExp.words ["morning"; "afternoon"; "evening"]]];
        RegExp.WordB].

(** [/\bjams\b/gi] *)
Definition jamsRE : RegExp.re := wholeWord (RegExp.lit "jams").

(** [/\broad\s?works?\b|\bbuilding\b/gi] *)
Definition roadworksRE : RegExp.re :=
  RegExp.Alt
    (wholeWord (seqs [RegExp.lit "road"; RegExp.Opt RegExp.Space; RegExp.lit "work";
                      RegExp.Opt (RegExp.Chr "s")]))
    (wholeWord (RegExp.lit "building")).

(** [/\bproblems\b|\bissues\b|\binconveniences\b|\bdisruptions\b/gi] *)
Definition problemsRE : RegExp.re :=
  RegExp.alts
    (map (fun w => wholeWord (RegExp.lit w))
       ["problems"; "issues"; "inconveniences"; "disruptions"]).

(** [/\b(on\s+roads?|everywhere|general|overall)\b/gi] *)
Definition everywhereRE : RegExp.re :=
  wholeWord
    (RegExp.alts
       [seqs [RegExp.lit "on"; RegExp.SpacePlus; RegExp.lit "road"; RegExp.Opt (RegExp.Chr "s")];
        RegExp.lit "everywhere"; RegExp.lit "general"; RegExp.lit "overall"]).

Definition preprocessQuery (query : string) (history : list TMessage) : string :=
  let processedQuery := query in
  let processedQuery := RegExp.replaceAll true jamsRE "congestion" processedQuery in
  let processedQuery := RegExp.replaceAll true roadworksRE "construction" processedQuery in
  let processedQuery := RegExp.replaceAll true problemsRE "all_categories" processedQuery in
  let processedQuery := RegExp.replaceAll true everywhereRE "all_categories" processedQuery in
  processedQuery.

Definition routeMap : gmap string (list string) :=
  list_to_map
    [("vlissingen-amsterdam", ["A58"; "A4"; "A2"; "A10"; "N57"; "N59"]);
     ("amsterdam-rotterdam", ["A4"; "A2"; "A13"])].

Definition isIncidentOnRoute (incident : Clean.t) (origin destination : string) : bool :=
  let normalizedOrigin := JS.trim (JS.toLowerCase origin) in
  let normalizedDestination := JS.trim (JS.toLowerCase destination) in
  let routeKey := normalizedOrigin +:+ "-" +:+ normalizedDestination in
  let relevantRoads := default [] (routeMap !! routeKey) in
  bool_decide (JS.toUpperCase (Clean.road incident) ∈ relevantRoads).

(** Invoking a capability of [llm.ts]: the call is recorded, the
    environment supplies what it resolves to. *)
Definition invoke {A : Type} (c : ModelCall) (result : A) : M A :=
  fun w =>
    (Returned result,
     {| now := now w; cache := cache w; fetches := fetches w;
        uuids := uuids w; calls := calls w ++ [c] |}).

Definition extractEntities (E : Env) (query : string) (history : list TMessage) : M Entities :=
  invoke (ExtractEntities query history) (llmEntities E query history).

Definition answerFromIncidents (E : Env) (userQuery : string) (incidents : list Clean.t)
    (history : list TMessage) (entities : Entities) : M string :=
  invoke (AnswerFromIncidents userQuery incidents history entities)
    (llmAnswer E userQuery incidents history entities).

Definition summarizeIncidentsForRoute (E : Env) (incidents : list Clean.t)
    (origin destination : string) : M string :=
  invoke (SummarizeIncidentsForRoute incidents origin destination)
    (llmRoute E incidents origin destination).

Definition nonTrafficReply (E : Env) (query : string) (history : list TMessage) : M string :=
  invoke (NonTrafficReply query history) (llmChat E query history).

(** An optional array is truthy when present, even if empty; an optional
    string when present and not empty. *)
Definition present {A : Type} (o : option A) : bool :=
  match o with Some _ => true | None => false end.

Definition nonEmptyString (o : option string) : bool :=
  match o with Some s => negb (String.eqb s "") | None => false end.

(** [xs && xs.length > 0] *)
Definition nonEmptyList {A : Type} (o : option (list A)) : bool :=
  match o with Some (_ :: _) => true | _ => false end.

(** The road filter of case 1. *)
Definition filterByRoads (rs : list string) (incidents : list Clean.t) : list Clean.t :=
  let roadSet : gset string := list_to_set (map JS.toUpperCase rs) in
  filter (fun i => JS.toUpperCase (Clean.road i) ∈ roadSet) incidents.

(** The category filter of case 1. *)
Definition filterByCategories (cs : list string) (incidents : list Clean.t) : list Clean.t :=
  let categoriesToFilter := cs in
  let categoriesToFilter :=
    if bool_decide ("all_categories" ∈ categoriesToFilter)
    then ["accident"; "construction"; "congestion"; "obstruction"; "weather"]
    else categoriesToFilter in
  let categorySet : gset string := list_to_set categoriesToFilter in
  filter (fun i => categoryName (Clean.category i) ∈ categorySet) incidents.

Definition getReply (E : Env) (query : string) (history : list TMessage) : M string :=
  let q := JS.trim query in
  if String.eqb q "" then ret "I didn't receive a message. Please try again."
  else if RegExp.test true greetingRE q
  then ret "Hello! How can I assist you with traffic information today?"
  else
    let processedQuery := preprocessQuery q history in
    entities <- extractEntities E processedQuery history ;;
    allIncidents <- fetchIncidents E ;;
    if present (roads entities) || present (categories entities) then
      let relevantIncidents := allIncidents in
      let relevantIncidents :=
        if nonEmptyList (roads entities)
        then filterByRoads (orEmpty (roads entities)) relevantIncidents
        else relevantIncidents in
      let relevantIncidents :=
        if nonEmptyList (categories entities)
        then filterByCategories (orEmpty (categories entities)) relevantIncidents
        else relevantIncidents in
      answerFromIncidents E q relevantIncidents history entities
    else if nonEmptyString (origin entities) && nonEmptyString (destination entities) then
      let origin_ := default "" (origin entities) in
      let destination_ := default "" (destination entities) in
      let relevantIncidents :=
        filter (fun inc => isIncidentOnRoute inc origin_ destination_ = true) allIncidents in
      summarizeIncidentsForRoute E relevantIncidents origin_ destination_
    else nonTrafficReply E q history.

(** ** Inputs used in the examples *)

Definition noMessages : list TMessage := [].

Definition world0 : World :=
  {| now := 1000000; cache := None; fetches := 0; uuids := 0; calls := [] |}.

Definition jam120 : Raw.t :=
  Raw.mk (JNum 7) JUndefined JUndefined JUndefined JUndefined JUndefined
         JUndefined JUndefined JUndefined JUndefined (Some 120).

(** One road "A2", one segment, one jam with [delay: 120]. *)
Definition feedA2 : Feed.t :=
  Feed.mk (Some [RoadEntry.mk (JStr "A2")
                   (Some [Segment.mk (JStr "Utrecht") (JStr "Breukelen")
                            (Some [jam120]) None None])]).

Definition silentEntities : Entities :=
  {| roads := None; categories := None; origin := None; destination := None |}.

Definition signOf (c : comparison) : Z :=
  match c with
  | Lt => -1
  | Eq => 0
  | Gt => 1
  end.

(** A collation for the examples.  Like the collations of the runtime it
    looks at the letters without regard to their case first, and only
    between strings that are then alike puts lower case before upper case:
    [a] before [B], and [a] before [A]. *)
Definition alphabetic (a b : string) : Z :=
  match String.compare (JS.toLowerCase a) (JS.toLowerCase b) with
  | Eq => signOf (String.compare b a)
  | c => signOf c
  end.

(** An environment whose feed always answers [feed] after 40 ms, whose model
    extracts [e], whose tokens are numbered and whose collation is
    [alphabetic]. *)
Definition envWith (feed : Response) (e : Entities) : Env :=
  {| upstream := fun _ => (40, feed);
     randomUUID := fun n => "uuid-" +:+ JS.showZ (Z.of_nat n);
     toLocaleString := fun v => ToString v;
     localeCompare := alphabetic;
     llmEntities := fun _ _ => e;
     llmAnswer := fun _ _ _ _ => "answer";
     llmRoute := fun _ _ _ => "route";
     llmChat := fun _ _ => "chat" |}.


(** ** Views used in the statements *)

(** The world after one token has been drawn from the random source. *)
Definition drawn (w : World) : World :=
  {| now := now w; cache := cache w; fetches := fetches w;
     uuids := S (uuids w); calls := calls w |}.

(** The world after a model capability has been invoked. *)
Definition recorded (c : ModelCall) (w : World) : World :=
  {| now := now w; cache := cache w; fetches := fetches w;
     uuids := uuids w; calls := calls w ++ [c] |}.

(** The world some milliseconds later. *)
Definition later (dt : Z) (w : World) : World :=
  {| now := now w + dt; cache := cache w; fetches := fetches w;
     uuids := uuids w; calls := calls w |}.

(** [w'] differs from [w] at most in the tokens drawn from the random
    source. *)
Definition sameButTokens (w w' : World) : Prop :=
  now w' = now w /\ cache w' = cache w /\ fetches w' = fetches w /\ calls w' = calls w.

(** The identifier [toClean] settles on in world [w]. *)
Definition idOf (E : Env) (raw : Raw.t) (w : World) : jsval :=
  if nullish (Raw.id raw ?? Raw.msgNr raw)
  then JStr (randomUUID E (uuids w))
  else Raw.id raw ?? Raw.msgNr raw.

(** [raw.start ?? raw.timestamp ?? undefined] *)
Definition rawStartISO (raw : Raw.t) : jsval :=
  Raw.start raw ?? Raw.timestamp raw ?? JUndefined.

(** Every raw item of a payload together with the road entry, the segment
    and the list it sits in, in the order [fetchIncidents] visits them. *)
Record FeedRecord : Type := {
  recRoad : jsval;
  recSegmentStart : jsval;
  recSegmentEnd : jsval;
  recBucket : Bucket;
  recItem : Raw.t
}.

Definition listRecords (road segmentStart segmentEnd : jsval) (bucket : Bucket)
    (items : option (list Raw.t)) : list FeedRecord :=
  map (Build_FeedRecord road segmentStart segmentEnd bucket) (orEmpty items).

Definition segmentRecords (road : jsval) (segment : Segment.t) : list FeedRecord :=
  let segmentStart := Segment.start segment ?? JStr "" in
  let segmentEnd := Segment.end_ segment ?? JStr "" in
  listRecords road segmentStart segmentEnd trafficJams (Segment.jams segment) ++
  listRecords road segmentStart segmentEnd roadWorks (Segment.roadworks segment) ++
  listRecords road segmentStart segmentEnd radars (Segment.radars segment).

Definition roadRecords (roadEntry : RoadEntry.t) : list FeedRecord :=
  flat_map (segmentRecords (RoadEntry.road roadEntry))
    (orEmpty (RoadEntry.segments roadEntry)).

Definition feedRecords (json : Feed.t) : list FeedRecord :=
  flat_map roadRecords (orEmpty (Feed.roads json)).

(** The item as [toClean] receives it, its location defaulted to the
    markers of the segment. *)
Definition located (r : FeedRecord) : Raw.t :=
  Raw.withLocation
    (Raw.location (recItem r) ??
       segmentLocation (recRoad r) (recSegmentStart r) (recSegmentEnd r))
    (recItem r).

Definition cleanRecord (E : Env) (r : FeedRecord) : M Clean.t :=
  toClean E (located r) (recBucket r) (recRoad r).

(** Cleaning the records one after the other, pushing each result. *)
Definition cleanAll (E : Env) (rs : list FeedRecord) (clean : list Clean.t) : M (list Clean.t) :=
  for_of rs (fun r (clean : list Clean.t) => c <- cleanRecord E r ;; ret (clean ++ [c])) clean.

(** The extraction call of a turn, and what it resolves to. *)
Definition extraction (query : string) (history : list TMessage) : ModelCall :=
  ExtractEntities (preprocessQuery (JS.trim query) history) history.

Definition entitiesOf (E : Env) (query : string) (history : list TMessage) : Entities :=
  llmEntities E (preprocessQuery (JS.trim query) history) history.

(** ** Vocabulary of the design document *)

(** [w] occurs in [txt] as a substring. *)
Definition occursIn (w txt : string) : Prop := exists pre post, txt = pre +:+ w +:+ post.

(** [txt] matches a vocabulary: one of its words occurs in it. *)
Definition mentions (vocabulary : list string) (txt : string) : Prop :=
  exists w, w ∈ vocabulary /\ occursIn w txt.

Definition collisionVocabulary : list string := ["ongeval"; "botsing"; "crash"].
Definition weatherVocabulary : list string := ["mist"; "gladheid"; "wateroverlast"; "storm"].
Definition obstacleVocabulary : list string := ["obstakel"; "stilgevallen"; "verlies van lading"].

Definition isString (v : jsval) : Prop := exists s, v = JStr s.

(** The record carries an identifier of its own. *)
Definition identified (r : FeedRecord) : Prop :=
  nullish (Raw.id (recItem r) ?? Raw.msgNr (recItem r)) = false.

(** The record carries neither [id] nor [msgNr]. *)
Definition anonymous (r : FeedRecord) : Prop :=
  nullish (Raw.id (recItem r) ?? Raw.msgNr (recItem r)) = true.

#[global] Instance anonymous_dec r : Decision (anonymous r).
Proof. unfold anonymous. apply _. Defined.

(** The world after [n] tokens have been drawn from the random source. *)
Definition tokens (n : nat) (w : World) : World := Nat.iter n drawn w.

(** The world in which the [k]-th record of a payload is converted when the
    walk starts in [w]: one token has been drawn for every record before it
    that carries neither [id] nor [msgNr]. *)
Definition worldAt (w : World) (rs : list FeedRecord) (k : nat) : World :=
  tokens (length (filter anonymous (take k rs))) w.

(** The key the incidents are ordered by: the timestamp, or the empty
    string when there is none. *)
Definition startKey (c : Clean.t) : string := default "" (Clean.startISO c).

(** [a] may stand before [b] in descending lexicographic order of the key. *)
Definition notBefore (a b : Clean.t) : Prop := String.leb (startKey b) (startKey a) = true.

(** [a] may stand before [b] in descending order of the key as the
    collation of the environment has it. *)
Definition collated (E : Env) (a b : Clean.t) : Prop :=
  localeCompare E (startKey b) (startKey a) <= 0.

(** On these strings the collation orders as lexicographic comparison
    does. *)
Definition lexicographicOn (E : Env) (keys : list string) : Prop :=
  forall a b, a ∈ keys -> b ∈ keys ->
    (localeCompare E a b <= 0 <-> String.leb a b = true).

(** The cache holds an entry younger than the freshness window. *)
Definition hasFresh (w : World) : bool :=
  match cache w with
  | Some e => now w - ts e <? 60000
  | None => false
  end.

(** The key the route table is consulted with, in the words of the design
    document: trim, then lower-case, then join with a hyphen. *)
Definition routeKeyOf (origin destination : string) : string :=
  JS.toLowerCase (JS.trim origin) +:+ "-" +:+ JS.toLowerCase (JS.trim destination).

(** The turn gets past the two guards of [getReply]. *)
Definition reachesModel (query : string) : Prop :=
  JS.trim query <> "" /\ RegExp.test true greetingRE (JS.trim query) = false.

(** The road filter of the design document: when roads were extracted, the
    upper-cased road of the incident is one of the upper-cased roads. *)
Definition roadSelected (e : Entities) (i : Clean.t) : Prop :=
  nonEmptyList (roads e) = true ->
  JS.toUpperCase (Clean.road i) ∈ map JS.toUpperCase (orEmpty (roads e)).

(** The category filter of the design document: when categories were
    extracted, the category of the incident is one of them, the marker
    standing for every category except [other]. *)
Definition categorySelected (e : Entities) (i : Clean.t) : Prop :=
  nonEmptyList (categories e) = true ->
  if bool_decide ("all_categories" ∈ orEmpty (categories e))
  then Clean.category i <> other
  else categoryName (Clean.category i) ∈ orEmpty (categories e).

#[global] Instance roadSelected_dec e i : Decision (roadSelected e i).
Proof. unfold roadSelected. apply _. Defined.

#[global] Instance categorySelected_dec e i : Decision (categorySelected e i).
Proof. unfold categorySelected. destruct (bool_decide _); apply _. Defined.

(** The key is missing, or holds the empty list. *)
Definition emptyOrAbsent {A : Type} (o : option (list A)) : Prop := o = None \/ o = Some [].

(** The reply of the guarded variant of the router when the feed is down. *)
Definition unavailableReply : string :=
  "Sorry, I am having trouble connecting to the traffic data service right now.".

(** ** Concrete feeds, incidents and worlds *)

Definition feedDown : Env := envWith NotOk silentEntities.

Definition feedUp : Env := envWith (Ok feedA2) silentEntities.

(** A raw item that only carries texts and a delay. *)
Definition rawWith (reason description : jsval) (delay : option Z) : Raw.t :=
  Raw.mk (JNum 1) JUndefined JUndefined JUndefined JUndefined reason description
         JUndefined JUndefined JUndefined delay.

(** A feed of one road with one segment that holds one jam. *)
Definition feedOfJam (road : jsval) (jam : Raw.t) : Feed.t :=
  Feed.mk (Some [RoadEntry.mk road
                   (Some [Segment.mk (JStr "Utrecht") (JStr "Breukelen")
                            (Some [jam]) None None])]).

(** A jam that carries neither [id] nor [msgNr]. *)
Definition feedAnonymous : Feed.t := feedOfJam (JStr "A2") Raw.empty.

(** A jam under a road entry that has no [road]. *)
Definition feedNoRoad : Feed.t := feedOfJam JUndefined jam120.

(** A jam under a road entry whose [road] is the empty string. *)
Definition feedEmptyRoad : Feed.t := feedOfJam (JStr "") jam120.

(** What [toClean] makes of that jam. *)
Definition emptyRoadJam : Clean.t :=
  Clean.mk "7" "" " Utrecht→Breukelen" congestion open None (Some 2) None.

(** Two jams on the A2, the first without a timestamp, the second with. *)
Definition feedTwoJams : Feed.t :=
  Feed.mk
    (Some [RoadEntry.mk (JStr "A2")
             (Some [Segment.mk JNull JNull
                      (Some [Raw.mk (JNum 1) JUndefined JUndefined JUndefined JUndefined
                               JUndefined JUndefined JUndefined JUndefined JUndefined None;
                             Raw.mk (JNum 2) JUndefined JUndefined JUndefined JUndefined
                               JUndefined JUndefined (JStr "2024-05-01T10:00:00")
                               JUndefined JUndefined None])
                      None None])]).

Definition twoJamsSorted : list Clean.t :=
  [Clean.mk "2" "A2" "A2 →" congestion open None None (Some "2024-05-01T10:00:00");
   Clean.mk "1" "A2" "A2 →" congestion open None None None].

(** What [toClean] makes of a jam on the A2 that reports 90 seconds. *)
Definition cleaned90 : Clean.t :=
  Clean.mk "1" "A2" "A2 →" congestion open None (Some 2) None.

(** What [normalize] makes of [feedA2]. *)
Definition cleanedA2 : list Clean.t :=
  [Clean.mk "7" "A2" "A2 Utrecht→Breukelen" congestion open None (Some 2) None].

(** [world0] after one successful refresh of the cache from [feedA2]. *)
Definition world1 : World :=
  {| now := 1000040; cache := Some {| ts := 1000040; data := cleanedA2 |};
     fetches := 1; uuids := 0; calls := [] |}.

Definition incidentOn (road : string) : Clean.t :=
  Clean.mk "1" road "somewhere" other open None None None.

(** An accident and a roadwork on the A2, and a jam on the A4. *)
Definition a2Accident : Clean.t :=
  Clean.mk "1" "A2" "A2 Utrecht" accident open None None None.
Definition a2Construction : Clean.t :=
  Clean.mk "2" "a2" "A2 Breukelen" construction open None None None.
Definition a4Jam : Clean.t :=
  Clean.mk "3" "A4" "A4 Leiden" congestion open None (Some 5) None.

(** A world whose cache is fresh and holds the three. *)
Definition worldCached : World :=
  {| now := 1000000;
     cache := Some {| ts := 999000; data := [a2Accident; a2Construction; a4Jam] |};
     fetches := 1; uuids := 0; calls := [] |}.

Definition a2ConstructionAsked : Entities :=
  {| roads := Some ["A2"]; categories := Some ["construction"];
     origin := None; destination := None |}.

(** Empty lists under both keys, and a route besides. *)
Definition emptyListsWithRoute : Entities :=
  {| roads := Some []; categories := Some [];
     origin := Some "Amsterdam"; destination := Some "Rotterdam" |}.

(** An empty list of roads beside a category. *)
Definition emptyRoadsAccident : Entities :=
  {| roads := Some []; categories := Some ["accident"];
     origin := None; destination := None |}.

(** Two jams on the A2 whose timestamps are spelled differently: the
    earlier one with a small [t] and [z]. *)
Definition feedTwoSpellings : Feed.t :=
  Feed.mk
    (Some [RoadEntry.mk (JStr "A2")
             (Some [Segment.mk JNull JNull
                      (Some [Raw.mk (JNum 1) JUndefined JUndefined JUndefined JUndefined
                               JUndefined JUndefined (JStr "2024-05-01t09:00:00z")
                               JUndefined JUndefined None;
                             Raw.mk (JNum 2) JUndefined JUndefined JUndefined JUndefined
                               JUndefined JUndefined (JStr "2024-05-01T10:00:00Z")
                               JUndefined JUndefined None])
                      None None])]).


(** ** Further vocabulary *)

(** The categories an item of a given list of the feed can end up in. *)
Definition categoryAllowed (bucket : Bucket) (c : Category) : Prop :=
  match bucket with
  | roadWorks => c = construction
  | trafficJams => c <> construction /\ c <> other
  | radars => c <> construction /\ c <> congestion
  end.

(** What the cache holds, if anything, is in descending order of the key
    as the collation has it. *)
Definition cacheSorted (E : Env) (w : World) : Prop :=
  match cache w with
  | Some e => StronglySorted (collated E) (data e)
  | None => True
  end.

(** Every character of the string is in the ASCII range. *)
Fixpoint isASCII (s : string) : bool :=
  match s with
  | EmptyString => true
  | String c s' => (JS.code c <? 128)%nat && isASCII s'
  end.

(** Every character of the string is white space. *)
Fixpoint allSpace (s : string) : bool :=
  match s with
  | EmptyString => true
  | String c s' => JS.isSpace c && allSpace s'
  end.

(** A world whose cache entry is a minute and a half old. *)
Definition worldStale : World :=
  {| now := 1000000;
     cache := Some {| ts := 910000; data := [a4Jam] |};
     fetches := 3; uuids := 0; calls := [] |}.

(** A jam whose reason mentions a closure and that carries both ends of it. *)
Definition jamClosed : Raw.t :=
  Raw.mk (JNum 9) JUndefined JUndefined JUndefined JUndefined (JStr "Weg dicht")
         (JStr "ongeval") (JStr "2024-05-01T10:00:00") (JStr "2024-05-01T12:00:00")
         JUndefined None.

Definition jamClosedClean : Clean.t :=
  Clean.mk "9" "A2" "A2 →" accident closed
    (Some "2024-05-01T10:00:00 – 2024-05-01T12:00:00") None (Some "2024-05-01T10:00:00").

(** The model calls a turn may add to the trace: none, the extraction
    alone, or the extraction followed by one answering capability. *)
Definition turnCalls (query : string) (history : list TMessage) (l : list ModelCall) : Prop :=
  l = [] \/
  l = [extraction query history] \/
  exists c, l = [extraction query history; c] /\
            forall q h, c <> ExtractEntities q h.


(** A route between two cities the table does not know. *)
Definition unknownRoute : Entities :=
  {| roads := None; categories := None;
     origin := Some "Groningen"; destination := Some "Maastricht" |}.

(** The last character of [s], or [prev] when [s] is empty. *)
Fixpoint lastChar (prev : option ascii) (s : string) : option ascii :=
  match s with
  | EmptyString => prev
  | String c s' => lastChar (Some c) s'
  end.

(** The one-word greetings of [greetingRE]. *)
Definition greetingWords : list string := ["hi"; "hello"; "hey"; "hallo"].

(** What follows does not continue the word: nothing, or a character that
    is not a letter, a digit or an underscore. *)
Definition endsWord (tail : string) : Prop :=
  match tail with
  | EmptyString => True
  | String c _ => JS.isWord c = false
  end.


(** Three jams on the A2: the second alone carries an identifier. *)
Definition feedMixed : Feed.t :=
  Feed.mk (Some [RoadEntry.mk (JStr "A2")
                   (Some [Segment.mk JUndefined JUndefined
                            (Some [Raw.empty; jam120; Raw.empty]) None None])]).

(** ** [llm.ts] from the inside

    The four capabilities as the module implements them, over the client of
    the model.  The three prompt constants are long texts with quotation
    marks in them; they do not take part in any decision and are taken as
    given, as is [JSON.parse]. *)

Module Llm.

(** What [llm.chat.completions.create] is called with. *)
Record Request : Type := {
  temperature : Q;
  jsonMode : bool;
  systemPrompt : string;
  messages : list TMessage
}.

(** What the call comes to: it rejects (or answers without a first choice),
    or it yields [choices[0].message?.content]. *)
Inductive Completion : Type :=
| Rejects
| Content (content : option string).

Record Service : Type := {
  create : Request -> Completion;
  JSON_parse : string -> option Entities;   (* [None] when it throws *)
  EXTRACT_ENTITIES_PROMPT : string;
  ANSWER_INCIDENTS_PROMPT : string;
  NON_TRAFFIC_PROMPT : string
}.

Definition unreachable : string :=
  "Sorry, I am having trouble connecting to the AI service right now.".

Definition callLLM (S : Service) (systemPrompt : string) (messages : list TMessage)
    (temperature : Q) (isJsonMode : bool) : string :=
  match create S {| temperature := temperature; jsonMode := isJsonMode;
                    systemPrompt := systemPrompt; messages := messages |} with
  | Content (Some content) => content
  | Content None => ""
  | Rejects => unreachable
  end.

Definition userMessage (content : string) : TMessage := {| role := user; content := content |}.

Definition extractEntities (S : Service) (query : string) (history : list TMessage) : Entities :=
  let messages := history ++ [userMessage query] in
  let jsonResponse := callLLM S (EXTRACT_ENTITIES_PROMPT S) messages 0 true in
  match JSON_parse S jsonResponse with
  | Some entities => entities
  | None => {| roads := None; categories := None; origin := None; destination := None |}
  end.

(** [xs.join(sep)] *)
Fixpoint join (sep : string) (xs : list string) : string :=
  match xs with
  | [] => ""
  | [x] => x
  | x :: rest => x +:+ sep +:+ join sep rest
  end.

Definition nl : string := String "010"%char "".
Definition quote : string := String "034"%char "".

(** [Record<Category, Clean[]>]: a list under each of the six keys. *)
Definition Groups : Type := Category -> list Clean.t.

(** [groups[k].push(inc)] *)
Definition push (groups : Groups) (k : Category) (inc : Clean.t) : Groups :=
  fun c => if decide (c = k) then groups c ++ [inc] else groups c.

Definition groupByCategory (list : list Clean.t) : Groups :=
  fold_left (fun acc inc => push acc (Clean.category inc) inc) list (fun _ => []).

Definition order : list Category :=
  [accident; construction; congestion; obstruction; weather; other].

Definition labels (cat : Category) : string :=
  match cat with
  | accident => "Accidents"
  | construction => "Construction"
  | congestion => "Congestion"
  | obstruction => "Obstruction"
  | weather => "Weather"
  | other => "Other"
  end.

(** The pieces of the line of one incident. *)
Definition pieces (inc : Clean.t) : list string :=
  [Clean.road inc +:+ " — " +:+ Clean.location inc]
  ++ (if decide (Clean.status inc = closed) then ["closed"] else [])
  ++ (match Clean.closure inc with
      | Some closure => if String.eqb closure "" then [] else ["closure " +:+ closure]
      | None => []
      end)
  ++ (match Clean.delay inc with
      | Some delay => if delay =? 0 then [] else ["delay ~" +:+ JS.showZ delay +:+ " min"]
      | None => []
      end).

Definition markdownFromGroups (groups : Groups) : string :=
  let out :=
    fold_left
      (fun out cat =>
         match groups cat with
         | [] => out
         | incs =>
             fold_left (fun out inc => out +:+ "• " +:+ join ", " (pieces inc) +:+ nl)
               incs (out +:+ "**" +:+ labels cat +:+ "**" +:+ nl)
         end)
      order "" in
  JS.trim out.

Definition answerFromIncidents (S : Service) (userQuery : string) (incidents : list Clean.t)
    (history : list TMessage) (entities : Entities) : string :=
  match incidents with
  | [] =>
      let hasRoads := nonEmptyList (roads entities) in
      let hasCategories := nonEmptyList (categories entities) in
      let theRoads := join " and " (orEmpty (roads entities)) in
      let theCategories := join " and " (orEmpty (categories entities)) in
      if hasRoads && hasCategories then
        "I couldn't find any " +:+ theCategories +:+ " incidents on " +:+ theRoads
        +:+ " at this time. Would you like me to check for all types of incidents on "
        +:+ theRoads +:+ "?"
      else if hasCategories then
        "I couldn't find any " +:+ theCategories
        +:+ " incidents at this time. Would you like me to list all " +:+ theCategories
        +:+ " incidents in the Netherlands?"
      else if hasRoads then
        "I couldn't find any reported incidents for your request about " +:+ quote
        +:+ userQuery +:+ quote +:+ " on " +:+ theRoads
        +:+ " at this time. The route appears clear. However, I can check for all types of incidents on "
        +:+ theRoads +:+ "."
      else
        "I couldn't find any reported incidents for your request about " +:+ quote
        +:+ userQuery +:+ quote
        +:+ " at this time. The route appears clear. However, I can provide a general overview of all current traffic incidents in the Netherlands."
  | _ =>
      let incidentMarkdown := markdownFromGroups (groupByCategory incidents) in
      let systemPromptWithData :=
        ANSWER_INCIDENTS_PROMPT S +:+ nl +:+ nl +:+ "LATEST TRAFFIC DATA:" +:+ nl
        +:+ incidentMarkdown in
      let messages := history ++ [userMessage userQuery] in
      callLLM S systemPromptWithData messages 0 false
  end.

Definition nonTrafficReply (S : Service) (query : string) (history : list TMessage) : string :=
  let messages := history ++ [userMessage query] in
  callLLM S (NON_TRAFFIC_PROMPT S) messages (7 # 10) false.

Definition summarizeIncidentsForRoute (S : Service) (incidents : list Clean.t)
    (origin destination : string) : string :=
  match incidents with
  | [] => "The route appears clear of reported incidents at this time."
  | _ =>
      let incidentMarkdown := markdownFromGroups (groupByCategory incidents) in
      let systemPromptWithData :=
        "You are RoadBuddy, a traffic assistant. Summarize the following traffic incidents for a route from "
        +:+ origin +:+ " to " +:+ destination
        +:+ ". Be concise and factual. Do not add any conversational filler or route suggestions."
        +:+ nl +:+ nl +:+ "LATEST TRAFFIC DATA:" +:+ nl +:+ incidentMarkdown in
      let messages := [userMessage ("Route from " +:+ origin +:+ " to " +:+ destination)] in
      callLLM S systemPromptWithData messages 0 false
  end.

End Llm.

(** The environment of the router when its capabilities are those of
    [llm.ts] over the service [S]; feed, locale and random source are those
    of [base]. *)
Definition served (S : Llm.Service) (base : Env) : Env :=
  {| upstream := upstream base;
     randomUUID := randomUUID base;
     toLocaleString := toLocaleString base;
     localeCompare := localeCompare base;
     llmEntities := Llm.extractEntities S;
     llmAnswer := Llm.answerFromIncidents S;
     llmRoute := Llm.summarizeIncidentsForRoute S;
     llmChat := Llm.nonTrafficReply S |}.

(** An incident whose delay of 0 minutes is dropped. *)
Definition withoutZeroDelay (inc : Clean.t) : Clean.t :=
  Clean.mk (Clean.id inc) (Clean.road inc) (Clean.location inc) (Clean.category inc)
    (Clean.status inc) (Clean.closure inc)
    (match Clean.delay inc with Some 0 => None | d => d end) (Clean.startISO inc).

(** A service whose model is down and whose parser rejects everything but
    the text [{}]. *)
Definition serviceDown : Llm.Service :=
  {| Llm.create := fun _ => Llm.Rejects;
     Llm.JSON_parse := fun s => if String.eqb s "{}" then Some silentEntities else None;
     Llm.EXTRACT_ENTITIES_PROMPT := "extract";
     Llm.ANSWER_INCIDENTS_PROMPT := "answer";
     Llm.NON_TRAFFIC_PROMPT := "chat" |}.

(** A service whose model echoes the system prompt and whose parser finds
    [e] in whatever it reads. *)
Definition serviceEcho (e : Entities) : Llm.Service :=
  {| Llm.create := fun r => Llm.Content (Some (Llm.systemPrompt r));
     Llm.JSON_parse := fun _ => Some e;
     Llm.EXTRACT_ENTITIES_PROMPT := "extract";
     Llm.ANSWER_INCIDENTS_PROMPT := "answer";
     Llm.NON_TRAFFIC_PROMPT := "chat" |}.

Definition a13Asked : Entities :=
  {| roads := Some ["A13"; "n57"]; categories := None; origin := None; destination := None |}.

(** * Properties *)

(** ** Worked inputs *)

Example trim_ex : JS.trim "  Amsterdam " = "Amsterdam".
Proof. reflexivity. Qed.

Example round_ex : JS.Math_round (90 # 60) = 2 /\ JS.Math_round (30 # 60) = 1 /\ JS.Math_round (29 # 60) = 0.
Proof. repeat split. Qed.

Example replace_ex :
  RegExp.replaceAll true
    (RegExp.Seq RegExp.WordB (RegExp.Seq (RegExp.lit "jams") RegExp.WordB))
    "congestion" "Any JAMS or jamss on the A2, jams?" =
  "Any congestion or jamss on the A2, congestion?".
Proof. reflexivity. Qed.

Example normalize_A2 :
  fst (normalize (envWith NotOk silentEntities) feedA2 world0) =
  Returned [Clean.mk "7" "A2" "A2 Utrecht→Breukelen" congestion open None (Some 2) None].
Proof. vm_compute. reflexivity. Qed.

Example greeting_ex :
  getReply (envWith NotOk silentEntities) "Hello" noMessages world0 =
  (Returned "Hello! How can I assist you with traffic information today?", world0).
Proof. vm_compute. reflexivity. Qed.

Example blank_ex :
  getReply (envWith NotOk silentEntities) "   " noMessages world0 =
  (Returned "I didn't receive a message. Please try again.", world0).
Proof. vm_compute. reflexivity. Qed.

Example preprocess_ex :
  preprocessQuery "Any road works or JAMS on roads near Utrecht, overall?" noMessages =
  "Any construction or congestion all_categories near Utrecht, all_categories?".
Proof. vm_compute. reflexivity. Qed.

Example hinder_not_greeting : RegExp.test true greetingRE "Hinder on the A2?" = false.
Proof. vm_compute. reflexivity. Qed.

Example greetings_ex :
  RegExp.test true greetingRE "hi there" = true /\
  RegExp.test true greetingRE "Good morning!" = true /\
  RegExp.test true greetingRE "history of the A2" = false /\
  RegExp.test true greetingRE "Oh, hello" = false.
Proof. repeat split. Qed.

(** ** The string primitives *)

Lemma append_nil t : "" +:+ t = t.
Proof. reflexivity. Qed.

Lemma append_cons c s t : String c s +:+ t = String c (s +:+ t).
Proof. reflexivity. Qed.

Lemma isSpace_lower c : JS.isSpace (JS.lower c) = JS.isSpace c.
Proof. destruct c as [[] [] [] [] [] [] [] []]; reflexivity. Qed.

Lemma trimStart_lower s : JS.trimStart (JS.toLowerCase s) = JS.toLowerCase (JS.trimStart s).
Proof.
  induction s as [|c s IH]; simpl; [reflexivity|].
  rewrite isSpace_lower. destruct (JS.isSpace c); [exact IH | reflexivity].
Qed.

Lemma trimEnd_lower s : JS.trimEnd (JS.toLowerCase s) = JS.toLowerCase (JS.trimEnd s).
Proof.
  induction s as [|c s IH]; simpl; [reflexivity|].
  unfold JS.toLowerCase in IH. rewrite IH, isSpace_lower.
  destruct (JS.trimEnd s) as [|d t]; simpl; [|reflexivity].
  destruct (JS.isSpace c); reflexivity.
Qed.

(** Trimming and lower-casing commute: the program lower-cases first, the
    design document trims first. *)
Lemma trim_lower s : JS.trim (JS.toLowerCase s) = JS.toLowerCase (JS.trim s).
Proof. unfold JS.trim. rewrite trimStart_lower. apply trimEnd_lower. Qed.

Lemma Math_round_div60 d : JS.Math_round (d # 60) = (d + 30) / 60.
Proof.
  unfold JS.Math_round, Qplus, Qfloor. simpl.
  replace (d * 2 + 1 * 60) with ((d + 30) * 2) by lia.
  change (Z.pos (60 * 2)) with (60 * 2).
  apply Z.div_mul_cancel_r; lia.
Qed.

(** ** The matcher on alternations of literal words *)

Lemma matchesAt_alt i r1 r2 p :
  RegExp.matchesAt i (RegExp.Alt r1 r2) p = RegExp.matchesAt i r1 p || RegExp.matchesAt i r2 p.
Proof.
  unfold RegExp.matchesAt; simpl.
  destruct (RegExp.exec i r1 p); simpl; reflexivity.
Qed.

Lemma matchesAt_lit prev w s :
  RegExp.matchesAt false (RegExp.lit w) (prev, s) = true <-> exists post, s = w +:+ post.
Proof.
  revert prev s. induction w as [|c w IH]; intros prev s.
  - split; [exists s; reflexivity | reflexivity].
  - unfold RegExp.matchesAt. simpl. destruct s as [|d s]; simpl.
    + split; [discriminate | intros [post H]; rewrite append_cons in H; discriminate].
    + destruct (Ascii.eqb_spec c d) as [->|Hne]; simpl.
      * rewrite app_nil_r. fold (RegExp.matchesAt false (RegExp.lit w) (Some d, s)).
        rewrite IH. split; intros [post H]; exists post; rewrite append_cons in *; congruence.
      * split; [discriminate | intros [post H]; rewrite append_cons in H; congruence].
Qed.

Lemma matchesAt_alts i rs p :
  rs <> [] ->
  RegExp.matchesAt i (RegExp.alts rs) p = true <-> exists r, r ∈ rs /\ RegExp.matchesAt i r p = true.
Proof.
  induction rs as [|r rs IH]; [congruence|]. intros _.
  destruct rs as [|r' rs].
  - simpl. split.
    + intros H. exists r. split; [apply list_elem_of_here | exact H].
    + intros [x [Hx H]]. apply list_elem_of_singleton in Hx. congruence.
  - change (RegExp.alts (r :: r' :: rs)) with (RegExp.Alt r (RegExp.alts (r' :: rs))).
    rewrite matchesAt_alt, orb_true_iff, IH by discriminate. split.
    + intros [H | [x [Hx H]]].
      * exists r. split; [apply list_elem_of_here | exact H].
      * exists x. split; [apply list_elem_of_further, Hx | exact H].
    + intros [x [Hx H]]. apply elem_of_cons in Hx as [-> | Hx]; [left; exact H |].
      right. exists x. split; assumption.
Qed.

Lemma matchesAt_words prev ws s :
  ws <> [] ->
  RegExp.matchesAt false (RegExp.words ws) (prev, s) = true <->
  exists w post, w ∈ ws /\ s = w +:+ post.
Proof.
  intros Hws. unfold RegExp.words.
  rewrite matchesAt_alts by (destruct ws; [congruence | discriminate]).
  split.
  - intros [r [Hr H]]. apply list_elem_of_fmap in Hr as [w [-> Hw]].
    apply matchesAt_lit in H as [post H]. exists w, post. split; assumption.
  - intros [w [post [Hw H]]]. exists (RegExp.lit w). split.
    + apply list_elem_of_fmap. exists w. split; [reflexivity | exact Hw].
    + apply matchesAt_lit. exists post. exact H.
Qed.

Lemma search_words prev ws s :
  ws <> [] ->
  RegExp.search false (RegExp.words ws) prev s = true <-> mentions ws s.
Proof.
  intros Hws. revert prev. induction s as [|c s IH]; intros prev.
  - simpl. rewrite orb_false_r, matchesAt_words by exact Hws. split.
    + intros [w [post [Hw H]]]. exists w. split; [exact Hw|]. exists "", post. exact H.
    + intros [w [Hw [pre [post H]]]]. exists w, post. split; [exact Hw|].
      destruct pre; [exact H | rewrite append_cons in H; discriminate].
  - simpl. rewrite orb_true_iff, matchesAt_words, IH by exact Hws. split.
    + intros [[w [post [Hw H]]] | [w [Hw [pre [post H]]]]].
      * exists w. split; [exact Hw|]. exists "", post. exact H.
      * exists w. split; [exact Hw|]. exists (String c pre), post.
        rewrite append_cons. congruence.
    + intros [w [Hw [pre [post H]]]]. destruct pre as [|d pre].
      * left. exists w, post. split; [exact Hw | exact H].
      * right. rewrite append_cons in H. injection H as -> H. exists w. split; [exact Hw|].
        exists pre, post. exact H.
Qed.

(** A pattern [w1|w2|...] of literal words tests true exactly on the texts
    in which one of the words occurs. *)
Lemma test_words ws s :
  ws <> [] -> RegExp.test false (RegExp.words ws) s = true <-> mentions ws s.
Proof. apply search_words. Qed.

Lemma test_words_false ws s :
  ws <> [] -> RegExp.test false (RegExp.words ws) s = false <-> ~ mentions ws s.
Proof.
  intros Hws. rewrite <- (test_words ws s Hws).
  destruct (RegExp.test false (RegExp.words ws) s); split; congruence.
Qed.

(** ** The classifier *)

(** C4.  [classify] applies its rules in strict order and the first that
    matches decides: the bucket roadworks gives construction whatever the
    text; otherwise collision vocabulary gives accident; otherwise weather
    vocabulary gives weather; otherwise obstacle vocabulary gives
    obstruction; otherwise the bucket jams gives congestion; otherwise
    other. *)
Theorem classify_first_match (raw : Raw.t) (bucket : Bucket) :
  let txt := classifyText raw in
  (bucket = roadWorks -> classify raw bucket = construction) /\
  (bucket <> roadWorks -> mentions collisionVocabulary txt ->
   classify raw bucket = accident) /\
  (bucket <> roadWorks -> ~ mentions collisionVocabulary txt ->
   mentions weatherVocabulary txt ->
   classify raw bucket = weather) /\
  (bucket <> roadWorks -> ~ mentions collisionVocabulary txt ->
   ~ mentions weatherVocabulary txt -> mentions obstacleVocabulary txt ->
   classify raw bucket = obstruction) /\
  (bucket = trafficJams -> ~ mentions collisionVocabulary txt ->
   ~ mentions weatherVocabulary txt -> ~ mentions obstacleVocabulary txt ->
   classify raw bucket = congestion) /\
  (bucket = radars -> ~ mentions collisionVocabulary txt ->
   ~ mentions weatherVocabulary txt -> ~ mentions obstacleVocabulary txt ->
   classify raw bucket = other).
Proof.
  intros txt. unfold classify. fold txt.
  change collisionRE with (RegExp.words collisionVocabulary).
  change weatherRE with (RegExp.words weatherVocabulary).
  change obstacleRE with (RegExp.words obstacleVocabulary).
  assert (Hc : collisionVocabulary <> []) by discriminate.
  assert (Hw : weatherVocabulary <> []) by discriminate.
  assert (Ho : obstacleVocabulary <> []) by discriminate.
  split; [| split; [| split; [| split; [| split]]]].
  - intros ->. reflexivity.
  - intros Hb H1. apply (test_words _ _ Hc) in H1.
    destruct (decide (bucket = roadWorks)); [contradiction|]. rewrite H1. reflexivity.
  - intros Hb H1 H2. apply (test_words_false _ _ Hc) in H1. apply (test_words _ _ Hw) in H2.
    destruct (decide (bucket = roadWorks)); [contradiction|]. rewrite H1, H2. reflexivity.
  - intros Hb H1 H2 H3. apply (test_words_false _ _ Hc) in H1.
    apply (test_words_false _ _ Hw) in H2. apply (test_words _ _ Ho) in H3.
    destruct (decide (bucket = roadWorks)); [contradiction|]. rewrite H1, H2, H3. reflexivity.
  - intros -> H1 H2 H3. apply (test_words_false _ _ Hc) in H1.
    apply (test_words_false _ _ Hw) in H2. apply (test_words_false _ _ Ho) in H3.
    simpl. rewrite H1, H2, H3. reflexivity.
  - intros -> H1 H2 H3. apply (test_words_false _ _ Hc) in H1.
    apply (test_words_false _ _ Hw) in H2. apply (test_words_false _ _ Ho) in H3.
    simpl. rewrite H1, H2, H3. reflexivity.
Qed.

(** On a concrete text, whether a vocabulary occurs is settled by running the
    pattern. *)
Ltac occurs := apply test_words; [discriminate | vm_compute; reflexivity].
Ltac absent := apply test_words_false; [discriminate | vm_compute; reflexivity].

Lemma classify_first_match_witness :
  classify (rawWith (JStr "Ongeval") JNull None) roadWorks = construction /\
  classify (rawWith (JStr "Ongeval met mist") JNull None) trafficJams = accident /\
  classify (rawWith JUndefined (JStr "Dichte MIST") None) trafficJams = weather /\
  classify (rawWith (JStr "Stilgevallen vrachtwagen") JUndefined None) radars = obstruction /\
  classify (rawWith (JStr "Langzaam rijdend verkeer") JUndefined None) trafficJams = congestion /\
  classify (rawWith JUndefined JUndefined None) radars = other.
Proof.
  split; [| split; [| split; [| split; [| split]]]].
  - apply (classify_first_match (rawWith (JStr "Ongeval") JNull None) roadWorks).
    reflexivity.
  - apply (classify_first_match (rawWith (JStr "Ongeval met mist") JNull None) trafficJams).
    + discriminate.
    + occurs.
  - apply (classify_first_match (rawWith JUndefined (JStr "Dichte MIST") None) trafficJams).
    + discriminate.
    + absent.
    + occurs.
  - apply (classify_first_match (rawWith (JStr "Stilgevallen vrachtwagen") JUndefined None) radars).
    + discriminate.
    + absent.
    + absent.
    + occurs.
  - apply (classify_first_match (rawWith (JStr "Langzaam rijdend verkeer") JUndefined None) trafficJams).
    + reflexivity.
    + absent.
    + absent.
    + absent.
  - apply (classify_first_match (rawWith JUndefined JUndefined None) radars).
    + reflexivity.
    + absent.
    + absent.
    + absent.
Defined.

(** ** The route heuristic *)

Lemma routeKey_agrees origin destination :
  JS.trim (JS.toLowerCase origin) +:+ "-" +:+ JS.trim (JS.toLowerCase destination) =
  routeKeyOf origin destination.
Proof. unfold routeKeyOf. rewrite !trim_lower. reflexivity. Qed.

(** C9.  [isIncidentOnRoute] trims and lower-cases origin and destination,
    looks the key "origin-destination" up in the static route table and
    answers true exactly when the upper-cased road of the incident is in the
    list of that pair; a pair that is not in the table gives false; the
    lookup is directional, the reversed pair being another key. *)
Theorem isIncidentOnRoute_lookup (incident : Clean.t) (origin destination : string) :
  (isIncidentOnRoute incident origin destination = true <->
   exists highways,
     routeMap !! routeKeyOf origin destination = Some highways /\
     JS.toUpperCase (Clean.road incident) ∈ highways) /\
  (routeMap !! routeKeyOf origin destination = None ->
   isIncidentOnRoute incident origin destination = false) /\
  (routeMap !! routeKeyOf "Amsterdam" "Rotterdam" = Some ["A4"; "A2"; "A13"] /\
   routeMap !! routeKeyOf "Rotterdam" "Amsterdam" = None).
Proof.
  unfold isIncidentOnRoute. rewrite routeKey_agrees.
  split; [|split].
  - rewrite bool_decide_eq_true.
    destruct (routeMap !! routeKeyOf origin destination) as [hs|]; simpl.
    + split; [intros H; exists hs; split; [reflexivity | exact H] |].
      intros [hs' [Heq H]]. congruence.
    + split; [intros H; apply elem_of_nil in H; contradiction |].
      intros [hs' [Heq _]]. discriminate.
  - intros ->. reflexivity.
  - split; vm_compute; reflexivity.
Qed.

Lemma isIncidentOnRoute_lookup_witness :
  isIncidentOnRoute (incidentOn "a4") " Rotterdam" "AMSTERDAM " = false /\
  isIncidentOnRoute (incidentOn "a4") " Amsterdam" "ROTTERDAM " = true.
Proof.
  split.
  - apply (isIncidentOnRoute_lookup (incidentOn "a4") " Rotterdam" "AMSTERDAM ").
    vm_compute. reflexivity.
  - apply (isIncidentOnRoute_lookup (incidentOn "a4") " Amsterdam" "ROTTERDAM ").
    exists ["A4"; "A2"; "A13"]. split; [vm_compute; reflexivity |].
    apply list_elem_of_here.
Defined.

Example route_scenario :
  isIncidentOnRoute (incidentOn "A4") "Amsterdam" "Rotterdam" = true /\
  isIncidentOnRoute (incidentOn "N1") "Amsterdam" "Rotterdam" = false.
Proof. split; vm_compute; reflexivity. Qed.

(** ** [toClean] *)

Lemma toClean_unfold E raw bucket road w :
  toClean E raw bucket road w =
  (CleanIncident_parse
     {| Candidate.id := JStr (ToString (idOf E raw w));
        Candidate.road := road;
        Candidate.location := cleanLocation raw road;
        Candidate.category := classify raw bucket;
        Candidate.status :=
          if RegExp.test false closedRE
               (ToString (Raw.reason raw ?? Raw.description raw ?? JStr ""))
          then closed else open;
        Candidate.closure := cleanClosure E raw;
        Candidate.delay := cleanDelay raw;
        Candidate.startISO := rawStartISO raw |},
   if nullish (Raw.id raw ?? Raw.msgNr raw) then drawn w else w).
Proof.
  unfold toClean, bind, cleanId, idOf.
  destruct (nullish (Raw.id raw ?? Raw.msgNr raw)); reflexivity.
Qed.

(** What an incident that [toClean] returns carries. *)
Lemma toClean_Returned E raw bucket road w c :
  fst (toClean E raw bucket road w) = Returned c ->
  road = JStr (Clean.road c) /\
  cleanLocation raw road = JStr (Clean.location c) /\
  Clean.id c = ToString (idOf E raw w) /\
  Clean.category c = classify raw bucket /\
  Clean.delay c = cleanDelay raw /\
  Clean.closure c = cleanClosure E raw /\
  (rawStartISO raw = JUndefined /\ Clean.startISO c = None \/
   exists s, rawStartISO raw = JStr s /\ Clean.startISO c = Some s).
Proof.
  rewrite toClean_unfold. unfold CleanIncident_parse. simpl.
  destruct road; try discriminate.
  destruct (cleanLocation raw (JStr s)); try discriminate.
  destruct (rawStartISO raw) as [| | | |t]; try discriminate;
    intros [= <-]; simpl; repeat split; eauto.
Qed.

Lemma toClean_road_not_string E raw bucket road w :
  (forall s, road <> JStr s) -> fst (toClean E raw bucket road w) = Threw ZodError.
Proof.
  intros Hroad. rewrite toClean_unfold. unfold CleanIncident_parse. simpl.
  destruct road; try reflexivity. exfalso. exact (Hroad s eq_refl).
Qed.

(** ** The delay *)

Lemma Math_round_nearest d :
  let m := JS.Math_round (d # 60) in -30 < 60 * m - d <= 30.
Proof.
  intros m. unfold m. rewrite Math_round_div60.
  pose proof (Z.div_mod (d + 30) 60 ltac:(lia)) as H.
  pose proof (Z.mod_pos_bound (d + 30) 60 ltac:(lia)) as H'.
  lia.
Qed.

Lemma Math_round_zero d : JS.Math_round (d # 60) = 0 <-> -30 <= d < 30.
Proof.
  pose proof (Math_round_nearest d) as H. simpl in H. split; [lia|].
  intros Hd. rewrite Math_round_div60. apply Z.div_small. lia.
Qed.

(** C2, as the program has it.  An upstream delay of [d >= 30] seconds is
    emitted as [round(d/60)] minutes, the nearest whole minute and at least
    one; a delay that is 0 or absent is omitted.  A delay of 0 is emitted
    all the same: exactly for the upstream delays other than 0 that round to
    0, those from -30 to 29 seconds. *)
Theorem toClean_delay (E : Env) (raw : Raw.t) (bucket : Bucket) (road : jsval)
    (w : World) (c : Clean.t) :
  fst (toClean E raw bucket road w) = Returned c ->
  (forall d, Raw.delay raw = Some d -> 30 <= d ->
     Clean.delay c = Some (JS.Math_round (d # 60)) /\
     1 <= JS.Math_round (d # 60) /\
     -30 < 60 * JS.Math_round (d # 60) - d <= 30) /\
  (Raw.delay raw = None \/ Raw.delay raw = Some 0 -> Clean.delay c = None) /\
  (Clean.delay c = Some 0 <->
   exists d, Raw.delay raw = Some d /\ d <> 0 /\ -30 <= d < 30).
Proof.
  intros H. apply toClean_Returned in H as (_ & _ & _ & _ & Hd & _).
  rewrite Hd. unfold cleanDelay. split; [|split].
  - intros d -> Hge. pose proof (Math_round_nearest d) as Hn. simpl in Hn.
    destruct (Z.eqb_spec d 0); [lia|]. split; [reflexivity|]. split; [lia | exact Hn].
  - intros [-> | ->]; reflexivity.
  - destruct (Raw.delay raw) as [d|].
    + destruct (Z.eqb_spec d 0) as [->|Hne].
      * split; [discriminate | intros (d & [= <-] & Hd0 & _); contradiction].
      * split.
        -- intros [= H0]. exists d. split; [reflexivity|]. split; [exact Hne|].
           apply Math_round_zero. exact H0.
        -- intros (d' & [= <-] & _ & Hr). f_equal. apply Math_round_zero. exact Hr.
    + split; [discriminate | intros (d & Hd' & _); discriminate].
Qed.

Lemma toClean_delay_witness :
  Clean.delay cleaned90 = Some (JS.Math_round (90 # 60)) /\
  1 <= JS.Math_round (90 # 60) /\
  -30 < 60 * JS.Math_round (90 # 60) - 90 <= 30.
Proof.
  assert (H : fst (toClean feedDown (rawWith JUndefined JUndefined (Some 90)) trafficJams
                     (JStr "A2") world0) = Returned cleaned90)
    by (vm_compute; reflexivity).
  apply (proj1 (toClean_delay feedDown (rawWith JUndefined JUndefined (Some 90))
                  trafficJams (JStr "A2") world0 cleaned90 H) 90); [reflexivity | lia].
Defined.

(** C2, as the design document has it, fails: a jam reported with a delay of
    20 seconds is emitted with the delay 0. *)
Lemma delay_zero_is_emitted :
  exists c,
    fst (normalize feedDown
           (feedOfJam (JStr "A2") (rawWith JUndefined JUndefined (Some 20))) world0)
    = Returned [c] /\
    Clean.delay c = Some 0.
Proof. eexists. split; vm_compute; reflexivity. Qed.

(** ** Loops *)

Lemma for_of_app {A S : Type} (xs ys : list A) (body : A -> S -> M S) (acc : S) (w : World) :
  for_of (xs ++ ys) body acc w = bind (for_of xs body acc) (for_of ys body) w.
Proof.
  revert acc w. induction xs as [|x xs IH]; intros acc w; [reflexivity|].
  simpl. unfold bind. destruct (body x acc w) as [[acc'|e] w']; [|reflexivity].
  rewrite IH. reflexivity.
Qed.

Lemma for_of_map {A B S : Type} (f : A -> B) (xs : list A) (body : B -> S -> M S)
    (acc : S) (w : World) :
  for_of (map f xs) body acc w = for_of xs (fun x => body (f x)) acc w.
Proof.
  revert acc w. induction xs as [|x xs IH]; intros acc w; [reflexivity|].
  simpl. unfold bind. destruct (body (f x) acc w) as [[acc'|e] w']; [apply IH | reflexivity].
Qed.

Lemma for_of_ext {A S : Type} (xs : list A) (body1 body2 : A -> S -> M S)
    (acc : S) (w : World) :
  (forall x acc w, body1 x acc w = body2 x acc w) ->
  for_of xs body1 acc w = for_of xs body2 acc w.
Proof.
  intros Hext. revert acc w. induction xs as [|x xs IH]; intros acc w; [reflexivity|].
  simpl. unfold bind. rewrite Hext.
  destruct (body2 x acc w) as [[acc'|e] w']; [apply IH | reflexivity].
Qed.

Lemma for_of_flat_map {A B S : Type} (f : A -> list B) (xs : list A)
    (body : B -> S -> M S) (acc : S) (w : World) :
  for_of xs (fun x acc => for_of (f x) body acc) acc w = for_of (flat_map f xs) body acc w.
Proof.
  revert acc w. induction xs as [|x xs IH]; intros acc w; [reflexivity|].
  simpl. rewrite for_of_app. unfold bind.
  destruct (for_of (f x) body acc w) as [[acc'|e] w']; [apply IH | reflexivity].
Qed.

(** ** Flattening, record by record *)

Lemma pushItems_records E bucket road segmentStart segmentEnd items clean w :
  pushItems E bucket road segmentStart segmentEnd items clean w =
  cleanAll E (listRecords road segmentStart segmentEnd bucket items) clean w.
Proof. unfold pushItems, cleanAll, listRecords. rewrite for_of_map. reflexivity. Qed.

Lemma bind_eq {A B : Type} (m : M A) (k : A -> M B) (w : World) :
  bind m k w =
  match m w with
  | (Returned a, w') => k a w'
  | (Threw e, w') => (Threw e, w')
  end.
Proof. reflexivity. Qed.

Lemma cleanAll_app E rs1 rs2 clean w :
  cleanAll E (rs1 ++ rs2) clean w =
  match cleanAll E rs1 clean w with
  | (Returned clean', w') => cleanAll E rs2 clean' w'
  | (Threw e, w') => (Threw e, w')
  end.
Proof. unfold cleanAll. rewrite for_of_app. reflexivity. Qed.

Lemma flatten_records E json w :
  flatten E json w = cleanAll E (feedRecords json) [] w.
Proof.
  unfold flatten, cleanAll, feedRecords.
  rewrite <- for_of_flat_map. apply for_of_ext. intros roadEntry acc w1.
  unfold roadRecords. rewrite <- for_of_flat_map. apply for_of_ext.
  intros segment acc2 w2.
  change (for_of (segmentRecords (RoadEntry.road roadEntry) segment) _ acc2 w2)
    with (cleanAll E (segmentRecords (RoadEntry.road roadEntry) segment) acc2 w2).
  unfold segmentRecords.
  rewrite cleanAll_app, bind_eq, pushItems_records.
  destruct (cleanAll E _ acc2 w2) as [[acc3|e] w3]; [|reflexivity].
  rewrite cleanAll_app, bind_eq, pushItems_records.
  destruct (cleanAll E _ acc3 w3) as [[acc4|e] w4]; [|reflexivity].
  apply pushItems_records.
Qed.

Lemma cleanAll_cons E r rs clean w :
  cleanAll E (r :: rs) clean w =
  match cleanRecord E r w with
  | (Returned c, w') => cleanAll E rs (clean ++ [c]) w'
  | (Threw e, w') => (Threw e, w')
  end.
Proof.
  unfold cleanAll. simpl. unfold bind.
  destruct (cleanRecord E r w) as [[c|e] w']; reflexivity.
Qed.

Lemma tokens_drawn n w : tokens n (drawn w) = tokens (S n) w.
Proof. unfold tokens. rewrite Nat.iter_succ_r. reflexivity. Qed.

(** When cleaning returns, it has pushed one incident per record, in order:
    the [k]-th is what [toClean] returns for the [k]-th record in the world
    the walk has reached by then. *)
Lemma cleanAll_at E rs clean w out w' :
  cleanAll E rs clean w = (Returned out, w') ->
  exists cs, out = clean ++ cs /\ length cs = length rs /\
    forall k r, rs !! k = Some r ->
      exists c, cs !! k = Some c /\ fst (cleanRecord E r (worldAt w rs k)) = Returned c.
Proof.
  revert clean w. induction rs as [|r rs IH]; intros clean w.
  - intros [= <- <-]. exists []. rewrite app_nil_r.
    split; [reflexivity|]. split; [reflexivity|]. intros k r Hk. discriminate.
  - rewrite cleanAll_cons. destruct (cleanRecord E r w) as [[c|e] w1] eqn:Hr; [|discriminate].
    intros H. apply IH in H as (cs & -> & Hlen & Hcs). exists (c :: cs).
    split; [rewrite <- app_assoc; reflexivity|]. split; [simpl; congruence|].
    intros [|k] r' Hk.
    + injection Hk as <-. exists c. split; [reflexivity|].
      unfold worldAt. simpl. rewrite Hr. reflexivity.
    + simpl in Hk. destruct (Hcs k r' Hk) as (c' & Hc' & Hconv).
      exists c'. split; [exact Hc'|].
      assert (Hw : worldAt w (r :: rs) (S k) = worldAt w1 rs k).
      { unfold worldAt. simpl take.
        unfold cleanRecord in Hr. rewrite toClean_unfold in Hr.
        change (Raw.id (located r)) with (Raw.id (recItem r)) in Hr.
        change (Raw.msgNr (located r)) with (Raw.msgNr (recItem r)) in Hr.
        destruct (nullish (Raw.id (recItem r) ?? Raw.msgNr (recItem r))) eqn:Hn.
        - injection Hr as _ <-. rewrite filter_cons_True by exact Hn.
          simpl length. symmetry. apply tokens_drawn.
        - injection Hr as _ <-.
          rewrite filter_cons_False by (unfold anonymous; congruence). reflexivity. }
      rewrite Hw. exact Hconv.
Qed.

(** ** Malformed records *)

(** C3, as the program has it.  The normaliser has no path that skips a
    record.  Whenever flattening a payload returns, it returns exactly one
    incident per record, in the order of the feed: the [k]-th incident is
    what [toClean] makes of the [k]-th record, and it carries the road of
    the record's road entry, the empty string included.  A record under a
    road entry whose [road] is missing or not a string fails the schema, and
    flattening a payload that holds such a record throws: no list of
    incidents comes out. *)
Theorem flatten_no_skip (E : Env) (json : Feed.t) (w : World) :
  (forall out w', flatten E json w = (Returned out, w') ->
     length out = length (feedRecords json) /\
     forall k r, feedRecords json !! k = Some r ->
       exists c, out !! k = Some c /\
                 fst (cleanRecord E r (worldAt w (feedRecords json) k)) = Returned c /\
                 recRoad r = JStr (Clean.road c)) /\
  (forall r, r ∈ feedRecords json -> ~ isString (recRoad r) ->
     (forall v, fst (cleanRecord E r v) = Threw ZodError) /\
     exists x, fst (flatten E json w) = Threw x).
Proof.
  rewrite flatten_records. split.
  - intros out w' H. apply cleanAll_at in H as (cs & -> & Hlen & Hcs). simpl.
    split; [exact Hlen|]. intros k r Hk.
    destruct (Hcs k r Hk) as (c & Hc & Hconv). exists c.
    split; [exact Hc|]. split; [exact Hconv|].
    apply toClean_Returned in Hconv as (Hroad & _). exact Hroad.
  - intros r Hin Hroad.
    assert (Hr : forall v, fst (cleanRecord E r v) = Threw ZodError).
    { intros v. apply toClean_road_not_string. intros s Hs. apply Hroad. exists s. exact Hs. }
    split; [exact Hr|].
    destruct (cleanAll E (feedRecords json) [] w) as [[out|e] w'] eqn:H; simpl.
    + exfalso. apply cleanAll_at in H as (cs & _ & _ & Hcs).
      apply list_elem_of_lookup in Hin as [k Hk].
      destruct (Hcs k r Hk) as (c & _ & Hc). rewrite Hr in Hc. discriminate.
    + exists e. reflexivity.
Qed.

Lemma flatten_no_skip_witness :
  (exists x, fst (flatten feedDown feedNoRoad world0) = Threw x) /\
  length [emptyRoadJam] = length (feedRecords feedEmptyRoad).
Proof.
  split.
  - apply (proj2 (flatten_no_skip feedDown feedNoRoad world0)
             (Build_FeedRecord JUndefined (JStr "Utrecht") (JStr "Breukelen")
                trafficJams jam120)).
    + apply list_elem_of_here.
    + intros [s Hs]. discriminate.
  - assert (H : flatten feedDown feedEmptyRoad world0 = (Returned [emptyRoadJam], world0))
      by (vm_compute; reflexivity).
    exact (proj1 (proj1 (flatten_no_skip feedDown feedEmptyRoad world0) _ _ H)).
Defined.

(** C3, as the design document has it, fails: a jam under a road entry
    without [road] is not skipped, flattening throws; and a jam under a
    road entry whose [road] is the empty string is emitted with the empty
    road. *)
Lemma missing_road_throws :
  fst (flatten feedDown feedNoRoad world0) = Threw ZodError /\
  exists c, fst (flatten feedDown feedEmptyRoad world0) = Returned [c] /\ Clean.road c = "".
Proof. split; [vm_compute; reflexivity |]. eexists. split; vm_compute; reflexivity. Qed.

(** ** Determinism *)

Lemma cleanRecord_identified E r w v :
  identified r -> cleanRecord E r w = (fst (cleanRecord E r v), w).
Proof.
  unfold identified, cleanRecord. intros H.
  rewrite !toClean_unfold. unfold idOf. simpl in *. rewrite H. reflexivity.
Qed.

Lemma cleanAll_identified E rs clean w v :
  Forall identified rs -> cleanAll E rs clean w = (fst (cleanAll E rs clean v), w).
Proof.
  intros H. revert clean. induction H as [|r rs Hr _ IH]; intros clean; [reflexivity|].
  rewrite !cleanAll_cons.
  rewrite (cleanRecord_identified E r w v Hr), (cleanRecord_identified E r v v Hr).
  destruct (fst (cleanRecord E r v)) as [c|e]; [apply IH | reflexivity].
Qed.

(** C8, as the program has it.  On a payload whose items all carry an [id]
    or a [msgNr], normalising is a function of the payload alone: from any
    two worlds it gives the same ordered outcome, and it leaves the world as
    it found it.  (An item that carries neither gets a freshly drawn token
    for an identifier, so two runs differ there.) *)
Theorem normalize_deterministic (E : Env) (json : Feed.t) (w v : World) :
  Forall identified (feedRecords json) ->
  normalize E json w = (fst (normalize E json v), w).
Proof.
  intros H. unfold normalize. rewrite !bind_eq, !flatten_records.
  rewrite (cleanAll_identified E _ [] w v H), (cleanAll_identified E _ [] v v H).
  destruct (fst (cleanAll E (feedRecords json) [] v)); reflexivity.
Qed.

Lemma normalize_deterministic_witness :
  normalize feedDown feedA2 (drawn world0) =
  (fst (normalize feedDown feedA2 world0), drawn world0).
Proof.
  apply (normalize_deterministic feedDown feedA2 (drawn world0) world0).
  repeat constructor.
Defined.

(** C8, as the design document has it, fails: normalising twice in a row a
    payload whose jam has no identifier gives two different lists. *)
Lemma normalize_twice_differs :
  let first := normalize feedDown feedAnonymous world0 in
  let second := normalize feedDown feedAnonymous (snd first) in
  now (snd first) = now world0 /\ fst first <> fst second.
Proof. split; [reflexivity | vm_compute; discriminate]. Qed.

(** ** Sorting *)

Section SortFacts.
Context {A : Type} (cmp : A -> A -> Z).

Let R (a b : A) : Prop := cmp a b <= 0.

Hypothesis cmp_total : forall a b, cmp a b <= 0 \/ cmp b a <= 0.

Lemma insert_HdRel x y l : R y x -> HdRel R y l -> HdRel R y (JS.insert cmp x l).
Proof.
  intros Hyx Hl. destruct l as [|z l]; simpl.
  - constructor. exact Hyx.
  - destruct (cmp x z <=? 0); constructor; [exact Hyx|].
    inversion Hl; assumption.
Qed.

Lemma insert_Sorted x l : Sorted R l -> Sorted R (JS.insert cmp x l).
Proof.
  induction 1 as [|y l Hs IH Hhd]; simpl.
  - repeat constructor.
  - destruct (Z.leb_spec (cmp x y) 0) as [Hle|Hgt].
    + constructor; [constructor; assumption | constructor; exact Hle].
    + constructor; [exact IH|]. apply insert_HdRel; [|exact Hhd].
      destruct (cmp_total x y) as [H|H]; [lia | exact H].
Qed.

Lemma sort_Sorted l : Sorted R (JS.sort cmp l).
Proof.
  induction l as [|x l IH]; simpl; [constructor | apply insert_Sorted, IH].
Qed.

Lemma insert_Permutation x l : JS.insert cmp x l ≡ₚ x :: l.
Proof using Type.
  induction l as [|y l IH]; simpl; [reflexivity|].
  destruct (cmp x y <=? 0); [reflexivity|].
  rewrite IH. apply Permutation_swap.
Qed.

Lemma sort_Permutation l : JS.sort cmp l ≡ₚ l.
Proof using Type.
  induction l as [|x l IH]; simpl; [reflexivity|].
  rewrite insert_Permutation, IH. reflexivity.
Qed.
End SortFacts.

Lemma leb_iff a b : String.leb a b = true <-> a = b \/ String_as_OT.lt a b.
Proof.
  unfold String.leb. destruct (String.compare a b) eqn:H.
  - apply String.compare_eq_iff in H. split; [left; exact H | reflexivity].
  - apply String_as_OT.cmp_lt in H. split; [right; exact H | reflexivity].
  - split; [discriminate|]. intros [-> | Hlt].
    + pose proof (proj2 (String_as_OT.cmp_eq b b) eq_refl) as Hb.
      unfold String_as_OT.cmp in Hb. congruence.
    + apply String_as_OT.cmp_lt in Hlt. unfold String_as_OT.cmp in Hlt. congruence.
Qed.

Lemma leb_trans a b c :
  String.leb a b = true -> String.leb b c = true -> String.leb a c = true.
Proof.
  rewrite !leb_iff. intros [-> | H1] [-> | H2]; auto.
  right. exact (String_as_OT.lt_trans _ _ _ H1 H2).
Qed.

Lemma leb_empty a : String.leb a "" = true -> a = "".
Proof. destruct a; [reflexivity | discriminate]. Qed.

Lemma signOf_le c : signOf c <= 0 <-> c <> Gt.
Proof. destruct c; simpl; split; (lia || congruence). Qed.

Lemma compare_le_leb a b : String.compare a b <> Gt <-> String.leb a b = true.
Proof. unfold String.leb. destruct (String.compare a b); split; congruence. Qed.

Lemma compare_refl a : String.compare a a = Eq.
Proof. exact (proj2 (String_as_OT.cmp_eq a a) eq_refl). Qed.

Lemma compare_Lt_trans a b c :
  String.compare a b = Lt -> String.compare b c = Lt -> String.compare a c = Lt.
Proof.
  intros H1 H2. apply String_as_OT.cmp_lt in H1, H2. apply String_as_OT.cmp_lt.
  exact (String_as_OT.lt_trans _ _ _ H1 H2).
Qed.

(** What [alphabetic] decides: the strings without their case, and between
    strings that are then alike the reverse of the lexicographic order. *)
Lemma alphabetic_le a b :
  alphabetic a b <= 0 <->
  String.compare (JS.toLowerCase a) (JS.toLowerCase b) = Lt \/
  JS.toLowerCase a = JS.toLowerCase b /\ String.leb b a = true.
Proof.
  unfold alphabetic.
  destruct (String.compare (JS.toLowerCase a) (JS.toLowerCase b)) eqn:H.
  - apply String.compare_eq_iff in H. rewrite signOf_le, compare_le_leb.
    split; [intros Hl; right; split; assumption | intros [Hn | [_ Hl]]; [discriminate | exact Hl]].
  - simpl. split; [intros _; left; reflexivity | lia].
  - simpl. split; [lia|]. intros [Hn | [He _]]; [discriminate|].
    rewrite He, compare_refl in H. discriminate.
Qed.

Lemma alphabetic_consistent : JS.consistent alphabetic.
Proof.
  split.
  - intros a b. rewrite !alphabetic_le.
    destruct (String.compare (JS.toLowerCase a) (JS.toLowerCase b)) eqn:H.
    + apply String.compare_eq_iff in H.
      destruct (String.leb_total a b) as [Hl | Hl].
      * right. right. split; [symmetry; exact H | exact Hl].
      * left. right. split; [exact H | exact Hl].
    + left. left. reflexivity.
    + right. left. rewrite String.compare_antisym, H. reflexivity.
  - intros a b c. rewrite !alphabetic_le.
    intros [H1 | [E1 L1]] [H2 | [E2 L2]].
    + left. exact (compare_Lt_trans _ _ _ H1 H2).
    + left. rewrite <- E2. exact H1.
    + left. rewrite E1. exact H2.
    + right. split; [congruence | exact (leb_trans _ _ _ L2 L1)].
Qed.

Section Collation.
Context (E : Env) (HE : JS.consistent (localeCompare E)).

Lemma byStartDesc_total a b : byStartDesc E a b <= 0 \/ byStartDesc E b a <= 0.
Proof using HE. apply (JS.consistent_total _ HE). Qed.

Lemma collated_trans : Transitive (collated E).
Proof using HE.
  intros a b c Hab Hbc. unfold collated in *.
  exact (JS.consistent_trans _ HE _ _ _ Hbc Hab).
Qed.

(** With a consistent comparator the sorted list is in the order of the
    comparator. *)
Lemma sort_byStartDesc l : StronglySorted (collated E) (JS.sort (byStartDesc E) l).
Proof using HE.
  apply Sorted_StronglySorted; [exact collated_trans|].
  apply (sort_Sorted (byStartDesc E)), byStartDesc_total.
Qed.
End Collation.

Lemma StronglySorted_weaken {A : Type} (R R' : A -> A -> Prop) (l : list A) :
  (forall a b, a ∈ l -> b ∈ l -> R a b -> R' a b) ->
  StronglySorted R l -> StronglySorted R' l.
Proof.
  intros H Hs. induction Hs as [|x l Hs IH Hx]; constructor.
  - apply IH. intros a b Ha Hb. apply H; apply list_elem_of_further; assumption.
  - apply Forall_forall. intros b Hb. apply H.
    + apply list_elem_of_here.
    + apply list_elem_of_further, Hb.
    + exact (proj1 (Forall_forall _ _) Hx b Hb).
Qed.

(** Where the collation orders the keys of a list as lexicographic
    comparison does, the order of the collation is descending lexicographic
    order. *)
Lemma collated_lexicographic E (l : list Clean.t) :
  lexicographicOn E (map startKey l) ->
  StronglySorted (collated E) l -> StronglySorted notBefore l.
Proof.
  intros Hlex. apply StronglySorted_weaken. intros a b Ha Hb Hab.
  unfold collated in Hab. unfold notBefore.
  apply (Hlex (startKey b) (startKey a)); [| |exact Hab];
    apply list_elem_of_fmap; eexists; split; try reflexivity; assumption.
Qed.

Lemma StronglySorted_split (l : list Clean.t) pre a post :
  StronglySorted notBefore l -> l = pre ++ a :: post -> Forall (notBefore a) post.
Proof.
  intros Hs ->. induction pre as [|x pre IH]; simpl in Hs.
  - inversion Hs; assumption.
  - inversion Hs; auto.
Qed.

(** C7, as the program has it.  Whatever the payload, what the normaliser
    returns is the flattened list arranged in descending order of
    [startISO] as [localeCompare], the collation of the locale, orders the
    strings, an incident without a timestamp counting as the empty string.
    That is descending lexicographic order, with nothing that has a
    timestamp after an incident that has none, whenever the collation
    orders the timestamps of the payload as lexicographic comparison
    does. *)
Theorem normalize_sorted (E : Env) (json : Feed.t) (w w' : World) (out : list Clean.t) :
  JS.consistent (localeCompare E) ->
  normalize E json w = (Returned out, w') ->
  (exists flat, flatten E json w = (Returned flat, w') /\ out ≡ₚ flat) /\
  StronglySorted (collated E) out /\
  (lexicographicOn E (map startKey out) ->
     StronglySorted notBefore out /\
     forall pre a post,
       out = pre ++ a :: post -> Clean.startISO a = None ->
       Forall (fun b => startKey b = "") post).
Proof.
  intros HE. unfold normalize. rewrite bind_eq.
  destruct (flatten E json w) as [[flat|e] w1]; [|discriminate].
  intros [= <- <-]. split; [|split].
  - exists flat. split; [reflexivity | apply sort_Permutation].
  - apply sort_byStartDesc, HE.
  - intros Hlex.
    assert (Hs : StronglySorted notBefore (JS.sort (byStartDesc E) flat)).
    { apply (collated_lexicographic E _ Hlex), sort_byStartDesc, HE. }
    split; [exact Hs|].
    intros pre a post Hout Ha.
    pose proof (StronglySorted_split _ pre a post Hs Hout) as HF.
    eapply Forall_impl; [exact HF|]. intros b Hb. unfold notBefore in Hb.
    unfold startKey at 2 in Hb. rewrite Ha in Hb. simpl in Hb. apply leb_empty. exact Hb.
Qed.

Lemma lexicographicOn_twoJams : lexicographicOn feedDown (map startKey twoJamsSorted).
Proof.
  intros a b Ha Hb. simpl in Ha, Hb.
  apply elem_of_cons in Ha as [-> | Ha]; [|apply elem_of_cons in Ha as [-> | Ha];
    [|apply elem_of_nil in Ha; contradiction]];
  (apply elem_of_cons in Hb as [-> | Hb]; [|apply elem_of_cons in Hb as [-> | Hb];
    [|apply elem_of_nil in Hb; contradiction]]);
  change (localeCompare feedDown) with alphabetic; rewrite alphabetic_le;
  vm_compute; split; intros H; try reflexivity; try discriminate; auto;
  destruct H as [H | [H1 H2]]; discriminate.
Qed.

Lemma normalize_sorted_witness :
  StronglySorted (collated feedDown) twoJamsSorted /\
  StronglySorted notBefore twoJamsSorted.
Proof.
  assert (H : normalize feedDown feedTwoJams world0 = (Returned twoJamsSorted, world0))
    by (vm_compute; reflexivity).
  destruct (normalize_sorted feedDown feedTwoJams world0 world0 twoJamsSorted
              alphabetic_consistent H) as (_ & Hc & Hl).
  split; [exact Hc | exact (proj1 (Hl lexicographicOn_twoJams))].
Defined.

(** C7, as the design document has it, fails: the order is that of the
    collation, which looks at the letters without regard to their case
    before it looks at the case.  Of two jams whose timestamps are spelled
    [2024-05-01t09:00:00z] and [2024-05-01T10:00:00Z] the second comes out
    first, though the first is the greater string in lexicographic order. *)
Lemma normalize_not_lexicographic :
  exists a b,
    fst (normalize feedDown feedTwoSpellings world0) = Returned [a; b] /\
    Clean.startISO a = Some "2024-05-01T10:00:00Z" /\
    Clean.startISO b = Some "2024-05-01t09:00:00z" /\
    ~ notBefore a b.
Proof.
  eexists. eexists. split; [vm_compute; reflexivity|].
  split; [reflexivity|]. split; [reflexivity|]. vm_compute. discriminate.
Qed.

(** ** The cache *)

Lemma cleanAll_frame E rs clean w : sameButTokens w (snd (cleanAll E rs clean w)).
Proof.
  revert clean w. induction rs as [|r rs IH]; intros clean w.
  - repeat split.
  - rewrite cleanAll_cons. unfold cleanRecord. rewrite toClean_unfold.
    destruct (CleanIncident_parse _) as [c|e].
    + destruct (nullish _).
      * destruct (IH (clean ++ [c]) (drawn w)) as (H1 & H2 & H3 & H4).
        repeat split; assumption.
      * apply IH.
    + destruct (nullish _); repeat split.
Qed.

Lemma normalize_frame E json w : sameButTokens w (snd (normalize E json w)).
Proof.
  unfold normalize. rewrite bind_eq, flatten_records.
  pose proof (cleanAll_frame E (feedRecords json) [] w) as H.
  destruct (cleanAll E (feedRecords json) [] w) as [[flat|e] w']; exact H.
Qed.

Lemma fetchIncidents_hit E w e :
  cache w = Some e -> now w - ts e < 60000 ->
  fetchIncidents E w = (Returned (data e), w).
Proof.
  intros Hc Hage. unfold fetchIncidents, bind, readCache, Date_now. rewrite Hc.
  destruct (Z.ltb_spec (now w - ts e) 60000); [reflexivity | lia].
Qed.

Lemma fetchIncidents_miss E w :
  hasFresh w = false -> fetchIncidents E w = refresh E w.
Proof.
  unfold hasFresh, fetchIncidents, bind, readCache, Date_now.
  destruct (cache w) as [e|]; [|reflexivity]. intros ->. reflexivity.
Qed.

(** A refresh that returns has sent one request and stored what it
    returns, stamped with the clock at that moment. *)
Lemma refresh_Returned E w out w' :
  refresh E w = (Returned out, w') ->
  cache w' = Some {| ts := now w'; data := out |} /\
  fetches w' = S (fetches w) /\
  calls w' = calls w.
Proof.
  unfold refresh. rewrite bind_eq. unfold fetch.
  destruct (upstream E (fetches w)) as [took [| |json]]; try discriminate.
  rewrite bind_eq.
  match goal with |- context [normalize E json ?v] => set (w1 := v) end.
  pose proof (normalize_frame E json w1) as (H1 & H2 & H3 & H4).
  destruct (normalize E json w1) as [[clean|e] w2]; [|discriminate].
  simpl in *. intros [= <- <-]. simpl. repeat split; assumption.
Qed.

(** A refresh whose request does not come back with a payload throws, having
    invoked no model capability. *)
Lemma refresh_fails E w :
  (forall json, snd (upstream E (fetches w)) <> Ok json) ->
  exists e, fst (refresh E w) = Threw e /\ calls (snd (refresh E w)) = calls w.
Proof.
  intros Hdown. unfold refresh. rewrite bind_eq. unfold fetch.
  destruct (upstream E (fetches w)) as [took [| |json]]; simpl in *.
  - eexists. split; reflexivity.
  - eexists. split; reflexivity.
  - exfalso. exact (Hdown json eq_refl).
Qed.

(** C5.  With an entry younger than 60 seconds in the cache,
    [fetchIncidents] returns the stored list, sends no request and leaves
    the world, the entry included, as it was.  Hence two calls in a row
    within the window send exactly one request: the first, finding nothing
    fresh, sends it and stores the result; the second returns that result
    from the cache. *)
Theorem fetchIncidents_cache (E : Env) :
  (forall w e,
     cache w = Some e -> now w - ts e < 60000 ->
     fetchIncidents E w = (Returned (data e), w)) /\
  (forall w0 w1 w2 out,
     hasFresh w0 = false ->
     fetchIncidents E w0 = (Returned out, w1) ->
     cache w2 = cache w1 -> fetches w2 = fetches w1 -> now w2 - now w1 < 60000 ->
     fetchIncidents E w2 = (Returned out, w2) /\ fetches w2 = S (fetches w0)).
Proof.
  split; [apply fetchIncidents_hit|].
  intros w0 w1 w2 out Hstale H1 Hc Hf Hage.
  rewrite (fetchIncidents_miss E w0 Hstale) in H1.
  apply refresh_Returned in H1 as (Hc1 & Hf1 & _).
  rewrite Hc1 in Hc. split; [|congruence].
  apply (fetchIncidents_hit E w2 _ Hc). exact Hage.
Qed.

Lemma fetchIncidents_cache_witness :
  fetchIncidents feedUp world1 = (Returned cleanedA2, world1) /\
  fetchIncidents feedUp (later 59999 world1) = (Returned cleanedA2, later 59999 world1) /\
  fetches (later 59999 world1) = S (fetches world0).
Proof.
  split.
  - apply (proj1 (fetchIncidents_cache feedUp) world1 {| ts := 1000040; data := cleanedA2 |});
      [reflexivity | vm_compute; reflexivity].
  - apply (proj2 (fetchIncidents_cache feedUp) world0 world1 (later 59999 world1) cleanedA2);
      [reflexivity | vm_compute; reflexivity | reflexivity | reflexivity
      | vm_compute; reflexivity].
Defined.

(** ** The router *)

Lemma eqb_empty_false s : s <> "" -> String.eqb s "" = false.
Proof. intros H. destruct (String.eqb_spec s ""); [contradiction | reflexivity]. Qed.

(** Past its two guards, [getReply] extracts, retrieves, then branches. *)
Lemma getReply_past_guards E query history w :
  reachesModel query ->
  getReply E query history w =
  (let q := JS.trim query in
   let e := entitiesOf E query history in
   match fetchIncidents E (recorded (extraction query history) w) with
   | (Returned allIncidents, w') =>
       (if present (roads e) || present (categories e) then
          answerFromIncidents E q
            (let r := if nonEmptyList (roads e)
                      then filterByRoads (orEmpty (roads e)) allIncidents
                      else allIncidents in
             if nonEmptyList (categories e)
             then filterByCategories (orEmpty (categories e)) r else r)
            history e
        else if nonEmptyString (origin e) && nonEmptyString (destination e) then
          summarizeIncidentsForRoute E
            (filter (fun inc => isIncidentOnRoute inc (default "" (origin e))
                                  (default "" (destination e)) = true) allIncidents)
            (default "" (origin e)) (default "" (destination e))
        else nonTrafficReply E q history) w'
   | (Threw x, w') => (Threw x, w')
   end).
Proof.
  intros [Hq Hg]. unfold getReply. rewrite (eqb_empty_false _ Hq), Hg. reflexivity.
Qed.

(** C1, as the program has it.  When the request to the feed fails, the
    turn has invoked exactly one model capability, the extraction of
    entities, which [getReply] performs before it retrieves the incidents;
    it invokes none of the answering capabilities. *)
Theorem getReply_feed_failure (E : Env) (query : string) (history : list TMessage)
    (w : World) :
  reachesModel query ->
  hasFresh w = false ->
  (forall json, snd (upstream E (fetches w)) <> Ok json) ->
  calls (snd (getReply E query history w)) = calls w ++ [extraction query history].
Proof.
  intros Hq Hstale Hdown. rewrite (getReply_past_guards E query history w Hq). simpl.
  rewrite fetchIncidents_miss by exact Hstale.
  destruct (refresh_fails E (recorded (extraction query history) w) Hdown) as (x & Hx & Hcalls).
  destruct (refresh E (recorded (extraction query history) w)) as [[out|x'] w'];
    [discriminate|]. exact Hcalls.
Qed.

Lemma getReply_feed_failure_witness :
  calls (snd (getReply feedDown "How is the A2?" noMessages world0)) =
  [ExtractEntities "How is the A2?" noMessages].
Proof.
  apply (getReply_feed_failure feedDown "How is the A2?" noMessages world0).
  - split; [discriminate | vm_compute; reflexivity].
  - reflexivity.
  - intros json. discriminate.
Defined.

(** C1, as the design document has it, fails: with the feed down, a question
    about the A2 makes [getReply] throw the gateway error instead of
    returning the apology, and the model has been called once. *)
Lemma feed_down_throws_after_extraction :
  let turn := getReply feedDown "How is the A2?" noMessages world0 in
  fst turn = Threw (HttpError 502 "ANWB feed error") /\
  fst turn <> Returned unavailableReply /\
  calls (snd turn) <> calls world0.
Proof. split; [|split]; vm_compute; [reflexivity | discriminate | discriminate]. Qed.

Lemma filter_all {A : Type} (P : A -> Prop) `{forall x, Decision (P x)} (l : list A) :
  (forall x, P x) -> filter P l = l.
Proof.
  intros HP. induction l as [|x l IH]; [reflexivity|].
  rewrite filter_cons_True by apply HP. f_equal. exact IH.
Qed.

Lemma filterByRoads_selected e (l : list Clean.t) :
  (if nonEmptyList (roads e) then filterByRoads (orEmpty (roads e)) l else l) =
  filter (roadSelected e) l.
Proof.
  destruct (nonEmptyList (roads e)) eqn:Hne.
  - unfold filterByRoads. apply list_filter_iff. intros i.
    unfold roadSelected. rewrite Hne, elem_of_list_to_set.
    split; [intros H _; exact H | intros H; exact (H eq_refl)].
  - symmetry. apply filter_all. intros i. unfold roadSelected. rewrite Hne. discriminate.
Qed.

Lemma expanded_categories (c : Category) :
  categoryName c ∈ ["accident"; "construction"; "congestion"; "obstruction"; "weather"] <->
  c <> other.
Proof.
  split.
  - intros H ->. simpl in H.
    repeat (apply elem_of_cons in H as [H|H]; [discriminate|]).
    apply elem_of_nil in H. exact H.
  - intros H. destruct c; simpl;
      repeat (first [apply list_elem_of_here | apply list_elem_of_further]).
    contradiction.
Qed.

Lemma filterByCategories_selected e (l : list Clean.t) :
  (if nonEmptyList (categories e) then filterByCategories (orEmpty (categories e)) l else l) =
  filter (categorySelected e) l.
Proof.
  destruct (nonEmptyList (categories e)) eqn:Hne.
  - unfold filterByCategories. apply list_filter_iff. intros i.
    unfold categorySelected. rewrite Hne, elem_of_list_to_set.
    destruct (bool_decide ("all_categories" ∈ orEmpty (categories e))).
    + rewrite expanded_categories.
      split; [intros H _; exact H | intros H; exact (H eq_refl)].
    + split; [intros H _; exact H | intros H; exact (H eq_refl)].
  - symmetry. apply filter_all. intros i. unfold categorySelected. rewrite Hne. discriminate.
Qed.

(** The two filters of the program, one after the other, keep what the two
    conditions of the design document select together. *)
Lemma filters_conjunctive e (allIncidents : list Clean.t) :
  (let r := if nonEmptyList (roads e)
            then filterByRoads (orEmpty (roads e)) allIncidents
            else allIncidents in
   if nonEmptyList (categories e)
   then filterByCategories (orEmpty (categories e)) r else r) =
  filter (fun i => roadSelected e i /\ categorySelected e i) allIncidents.
Proof.
  simpl. rewrite filterByRoads_selected, filterByCategories_selected.
  rewrite list_filter_filter. apply list_filter_iff. intros i. tauto.
Qed.

Lemma nonEmptyList_present {A : Type} (o : option (list A)) :
  nonEmptyList o = true -> present o = true.
Proof. destruct o as [[|x l]|]; simpl; congruence. Qed.

(** Whenever one of the two keys is present, the turn ends in the answering
    capability, called on what the two conditions select together. *)
Lemma getReply_answers E query history w allIncidents w' :
  reachesModel query ->
  present (roads (entitiesOf E query history))
    || present (categories (entitiesOf E query history)) = true ->
  fetchIncidents E (recorded (extraction query history) w) = (Returned allIncidents, w') ->
  let e := entitiesOf E query history in
  let relevant := filter (fun i => roadSelected e i /\ categorySelected e i) allIncidents in
  getReply E query history w =
  (Returned (llmAnswer E (JS.trim query) relevant history e),
   recorded (AnswerFromIncidents (JS.trim query) relevant history e) w').
Proof.
  intros Hq Hpresent Hfetch e relevant.
  rewrite (getReply_past_guards E query history w Hq). simpl.
  rewrite Hfetch, Hpresent.
  pose proof (filters_conjunctive (entitiesOf E query history) allIncidents) as Hf.
  simpl in Hf. rewrite Hf. reflexivity.
Qed.

(** C6.  When roads or categories (or both) were extracted, the router
    filters the full set of incidents before it calls the answering
    capability: the road filter keeps exactly the incidents whose
    upper-cased road is among the upper-cased extracted roads; the category
    filter keeps exactly those whose category is among the extracted ones,
    the marker [all_categories] standing for every category except [other];
    with both, an incident must pass both. *)
Theorem getReply_filters (E : Env) (query : string) (history : list TMessage)
    (w w' : World) (allIncidents : list Clean.t) :
  reachesModel query ->
  nonEmptyList (roads (entitiesOf E query history))
    || nonEmptyList (categories (entitiesOf E query history)) = true ->
  fetchIncidents E (recorded (extraction query history) w) = (Returned allIncidents, w') ->
  let e := entitiesOf E query history in
  let relevant := filter (fun i => roadSelected e i /\ categorySelected e i) allIncidents in
  getReply E query history w =
  (Returned (llmAnswer E (JS.trim query) relevant history e),
   recorded (AnswerFromIncidents (JS.trim query) relevant history e) w') /\
  (forall i, i ∈ relevant <-> i ∈ allIncidents /\ roadSelected e i /\ categorySelected e i).
Proof.
  intros Hq Hlists Hfetch e relevant. split.
  - apply (getReply_answers E query history w allIncidents w' Hq); [|exact Hfetch].
    apply orb_true_iff in Hlists as [H|H]; apply nonEmptyList_present in H;
      rewrite H; [reflexivity | apply orb_true_r].
  - intros i. unfold relevant. rewrite list_elem_of_filter. tauto.
Qed.

Lemma getReply_filters_witness :
  getReply (envWith NotOk a2ConstructionAsked) "Any construction on the A2?" noMessages
    worldCached =
  (Returned "answer",
   recorded
     (AnswerFromIncidents "Any construction on the A2?" [a2Construction] noMessages
        a2ConstructionAsked)
     (recorded (ExtractEntities "Any construction on the A2?" noMessages) worldCached)).
Proof.
  apply (proj1 (getReply_filters (envWith NotOk a2ConstructionAsked)
                  "Any construction on the A2?" noMessages worldCached
                  (recorded (ExtractEntities "Any construction on the A2?" noMessages)
                     worldCached)
                  [a2Accident; a2Construction; a4Jam]
                  ltac:(split; [discriminate | vm_compute; reflexivity])
                  ltac:(reflexivity)
                  ltac:(vm_compute; reflexivity))).
Defined.

(** C10, as the program has it.  When the extraction result has a [roads]
    or a [categories] key whose value is an empty list, the router still
    takes the filter-and-answer branch, and the route summary is not
    reached, whether or not an origin and a destination are present.  The
    empty list applies no filter; the other key still applies its own when
    it holds a list that is not empty.  So the answering capability
    receives the full set of incidents when the other key is absent or
    empty as well, and what the other filter keeps otherwise. *)
Theorem getReply_empty_lists (E : Env) (query : string) (history : list TMessage)
    (w w' : World) (allIncidents : list Clean.t) :
  reachesModel query ->
  roads (entitiesOf E query history) = Some []
    \/ categories (entitiesOf E query history) = Some [] ->
  fetchIncidents E (recorded (extraction query history) w) = (Returned allIncidents, w') ->
  let e := entitiesOf E query history in
  let relevant := filter (fun i => roadSelected e i /\ categorySelected e i) allIncidents in
  getReply E query history w =
  (Returned (llmAnswer E (JS.trim query) relevant history e),
   recorded (AnswerFromIncidents (JS.trim query) relevant history e) w') /\
  (roads e = Some [] -> relevant = filter (categorySelected e) allIncidents) /\
  (categories e = Some [] -> relevant = filter (roadSelected e) allIncidents) /\
  (emptyOrAbsent (roads e) -> emptyOrAbsent (categories e) -> relevant = allIncidents).
Proof.
  intros Hq Hempty Hfetch. cbv zeta. split; [|split; [|split]].
  - apply (getReply_answers E query history w allIncidents w' Hq); [|exact Hfetch].
    destruct Hempty as [H|H]; rewrite H; [reflexivity | apply orb_true_r].
  - intros Hr. apply list_filter_iff. intros i.
    unfold roadSelected. rewrite Hr. simpl.
    split; [tauto|]. intros H. split; [discriminate | exact H].
  - intros Hc. apply list_filter_iff. intros i.
    unfold categorySelected at 1. rewrite Hc. simpl.
    split; [tauto|]. intros H. split; [exact H | discriminate].
  - intros Hr Hc. apply filter_all. intros i. split.
    + unfold roadSelected. destruct Hr as [-> | ->]; discriminate.
    + unfold categorySelected. destruct Hc as [-> | ->]; discriminate.
Qed.

Lemma getReply_empty_lists_witness :
  getReply (envWith NotOk emptyListsWithRoute) "From Amsterdam to Rotterdam?" noMessages
    worldCached =
  (Returned "answer",
   recorded
     (AnswerFromIncidents "From Amsterdam to Rotterdam?" [a2Accident; a2Construction; a4Jam]
        noMessages emptyListsWithRoute)
     (recorded (ExtractEntities "From Amsterdam to Rotterdam?" noMessages) worldCached)).
Proof.
  destruct (getReply_empty_lists (envWith NotOk emptyListsWithRoute)
              "From Amsterdam to Rotterdam?" noMessages worldCached
              (recorded (ExtractEntities "From Amsterdam to Rotterdam?" noMessages)
                 worldCached)
              [a2Accident; a2Construction; a4Jam]
              ltac:(split; [discriminate | vm_compute; reflexivity])
              ltac:(left; reflexivity)
              ltac:(vm_compute; reflexivity)) as (Hreply & _ & _ & Hall).
  rewrite Hreply. rewrite (Hall ltac:(right; reflexivity) ltac:(right; reflexivity)).
  reflexivity.
Defined.

(** C10, as it is worded, fails: with an empty list of roads beside the
    category accident, the branch is taken but the category filter is
    applied, and of the three cached incidents the answering capability
    receives the accident alone. *)
Lemma empty_roads_keeps_category_filter :
  getReply (envWith NotOk emptyRoadsAccident) "Any accidents?" noMessages worldCached =
  (Returned "answer",
   recorded
     (AnswerFromIncidents "Any accidents?" [a2Accident] noMessages emptyRoadsAccident)
     (recorded (ExtractEntities "Any accidents?" noMessages) worldCached)).
Proof. vm_compute. reflexivity. Qed.

(** The scenario of the design document: roads [A2] and categories
    [construction] against an accident and a roadwork on the A2. *)
Example filter_scenario :
  filter (fun i => roadSelected a2ConstructionAsked i /\ categorySelected a2ConstructionAsked i)
    [a2Accident; a2Construction] = [a2Construction].
Proof. vm_compute. reflexivity. Qed.

(** * Further properties of [anwb.ts] *)

Lemma mentions_singleton w txt : mentions [w] txt <-> occursIn w txt.
Proof.
  split.
  - intros (w' & Hw & H). apply list_elem_of_singleton in Hw. subst. exact H.
  - intros H. exists w. split; [apply list_elem_of_here | exact H].
Qed.

Lemma toClean_Returned_status E raw bucket road w c :
  fst (toClean E raw bucket road w) = Returned c ->
  Clean.status c =
  if RegExp.test false closedRE (ToString (Raw.reason raw ?? Raw.description raw ?? JStr ""))
  then closed else open.
Proof.
  rewrite toClean_unfold. unfold CleanIncident_parse. simpl.
  destruct road; try discriminate.
  destruct (cleanLocation raw (JStr s)); try discriminate.
  destruct (rawStartISO raw); try discriminate; intros [= <-]; reflexivity.
Qed.

(** X1.  An incident is emitted as closed exactly when the word "dicht", in
    lower case, occurs in the text [raw.reason ?? raw.description ?? '']:
    as soon as the item has a reason its description is not looked at. *)
Theorem toClean_status (E : Env) (raw : Raw.t) (bucket : Bucket) (road : jsval)
    (w : World) (c : Clean.t) :
  fst (toClean E raw bucket road w) = Returned c ->
  (Clean.status c = closed <->
   occursIn "dicht" (ToString (Raw.reason raw ?? Raw.description raw ?? JStr ""))) /\
  (nullish (Raw.reason raw) = false ->
   (Clean.status c = closed <-> occursIn "dicht" (ToString (Raw.reason raw)))).
Proof.
  intros H. apply toClean_Returned_status in H.
  assert (Hiff : Clean.status c = closed <->
    occursIn "dicht" (ToString (Raw.reason raw ?? Raw.description raw ?? JStr ""))).
  { rewrite H, <- mentions_singleton.
    rewrite <- (test_words ["dicht"] _ ltac:(discriminate)).
    change (RegExp.words ["dicht"]) with closedRE.
    destruct (RegExp.test false closedRE _); split; congruence. }
  split; [exact Hiff|].
  intros Hr. unfold nullishOr at 1 in Hiff. rewrite Hr in Hiff. exact Hiff.
Qed.

Lemma toClean_status_witness :
  Clean.status jamClosedClean = closed <-> occursIn "dicht" "Weg dicht".
Proof.
  assert (H : fst (toClean feedDown jamClosed trafficJams (JStr "A2") world0)
              = Returned jamClosedClean) by (vm_compute; reflexivity).
  apply (proj2 (toClean_status feedDown jamClosed trafficJams (JStr "A2") world0
                  jamClosedClean H)).
  reflexivity.
Defined.

Lemma truthy_not_nullish v : truthy v = true -> nullish v = false.
Proof. destruct v; simpl; congruence. Qed.

(** X2.  An emitted incident that has a closure range also has a timestamp,
    and that timestamp is the item's own [start]: a closure is only built
    when [start] and [stop] are both truthy. *)
Theorem toClean_closure_start (E : Env) (raw : Raw.t) (bucket : Bucket) (road : jsval)
    (w : World) (c : Clean.t) :
  fst (toClean E raw bucket road w) = Returned c ->
  Clean.closure c <> None ->
  truthy (Raw.stop raw) = true /\
  exists s, s <> "" /\ Raw.start raw = JStr s /\ Clean.startISO c = Some s.
Proof.
  intros H Hcl. apply toClean_Returned in H as (_ & _ & _ & _ & _ & Hc & Hs).
  rewrite Hc in Hcl. unfold cleanClosure in Hcl.
  destruct (truthy (Raw.start raw)) eqn:Hstart; [|contradiction].
  destruct (truthy (Raw.stop raw)) eqn:Hstop; [|contradiction].
  split; [reflexivity|].
  pose proof (truthy_not_nullish _ Hstart) as Hn.
  unfold rawStartISO, nullishOr in Hs. rewrite Hn in Hs.
  destruct Hs as [[Hu _] | (s & Hs & Hiso)].
  - rewrite Hu in Hstart. discriminate.
  - exists s. split; [|split; assumption].
    intros ->. rewrite Hs in Hstart. discriminate.
Qed.

Lemma toClean_closure_start_witness :
  truthy (Raw.stop jamClosed) = true /\
  exists s, s <> "" /\ Raw.start jamClosed = JStr s /\ Clean.startISO jamClosedClean = Some s.
Proof.
  assert (H : fst (toClean feedDown jamClosed trafficJams (JStr "A2") world0)
              = Returned jamClosedClean) by (vm_compute; reflexivity).
  apply (toClean_closure_start feedDown jamClosed trafficJams (JStr "A2") world0
           jamClosedClean H).
  discriminate.
Defined.

(** X3.  The location of an incident that [fetchIncidents] emits is the
    item's own location when it has one, and otherwise the road followed by
    the markers of the segment; the fallback of [toClean] on the item's
    [from] and [to] is never what comes out. *)
Theorem cleanRecord_location (E : Env) (r : FeedRecord) (w : World) (c : Clean.t) :
  fst (cleanRecord E r w) = Returned c ->
  JStr (Clean.location c) =
  Raw.location (recItem r) ??
    JStr (ToString (recRoad r) +:+ " " +:+ ToString (recSegmentStart r)
          +:+ "→" +:+ ToString (recSegmentEnd r)).
Proof.
  intros H. apply toClean_Returned in H as (_ & Hl & _).
  rewrite <- Hl. unfold cleanLocation, located, segmentLocation. simpl.
  destruct (Raw.location (recItem r)); reflexivity.
Qed.

Lemma cleanRecord_location_witness :
  JStr "A2 Utrecht→Breukelen" =
  JUndefined ?? JStr (ToString (JStr "A2") +:+ " " +:+ ToString (JStr "Utrecht")
                      +:+ "→" +:+ ToString (JStr "Breukelen")).
Proof.
  apply (cleanRecord_location feedDown
           (Build_FeedRecord (JStr "A2") (JStr "Utrecht") (JStr "Breukelen") trafficJams jam120)
           world0
           (Clean.mk "7" "A2" "A2 Utrecht→Breukelen" congestion open None (Some 2) None)).
  vm_compute. reflexivity.
Defined.

Lemma classify_allowed raw bucket : categoryAllowed bucket (classify raw bucket).
Proof.
  unfold classify, categoryAllowed.
  destruct bucket; simpl;
    repeat match goal with
           | |- context [if ?b then _ else _] => destruct b
           end; try reflexivity; split; discriminate.
Qed.

(** X4.  When flattening returns, it has emitted exactly one incident per
    raw item, in the order of the feed (per segment: jams, then roadworks,
    then radars): the [k]-th incident is what [toClean] makes of the [k]-th
    item, it has the road of the item's road entry and a category the
    item's list allows: construction for every roadwork, never construction
    or other for a jam, never construction or congestion for a radar. *)
Theorem flatten_one_per_item (E : Env) (json : Feed.t) (w w' : World) (out : list Clean.t) :
  flatten E json w = (Returned out, w') ->
  length out = length (feedRecords json) /\
  forall k r, feedRecords json !! k = Some r ->
    exists c, out !! k = Some c /\
              fst (cleanRecord E r (worldAt w (feedRecords json) k)) = Returned c /\
              recRoad r = JStr (Clean.road c) /\
              categoryAllowed (recBucket r) (Clean.category c).
Proof.
  rewrite flatten_records. intros H.
  apply cleanAll_at in H as (cs & -> & Hlen & Hcs). simpl.
  split; [exact Hlen|]. intros k r Hk.
  destruct (Hcs k r Hk) as (c & Hc & Hconv). exists c.
  split; [exact Hc|]. split; [exact Hconv|].
  apply toClean_Returned in Hconv as (Hroad & _ & _ & Hcat & _).
  split; [exact Hroad|]. rewrite Hcat. apply classify_allowed.
Qed.

Lemma flatten_one_per_item_witness :
  length cleanedA2 = length (feedRecords feedA2) /\
  forall k r, feedRecords feedA2 !! k = Some r ->
    exists c, cleanedA2 !! k = Some c /\
              fst (cleanRecord feedDown r (worldAt world0 (feedRecords feedA2) k)) = Returned c /\
              recRoad r = JStr (Clean.road c) /\
              categoryAllowed (recBucket r) (Clean.category c).
Proof.
  apply (flatten_one_per_item feedDown feedA2 world0 world0 cleanedA2).
  vm_compute. reflexivity.
Defined.

Lemma cleanAll_tokens E rs clean w out w' :
  cleanAll E rs clean w = (Returned out, w') ->
  uuids w' = (uuids w + length (filter anonymous rs))%nat.
Proof.
  revert clean w. induction rs as [|r rs IH]; intros clean w.
  - intros [= _ <-]. simpl. lia.
  - rewrite cleanAll_cons. unfold cleanRecord. rewrite toClean_unfold.
    destruct (CleanIncident_parse _) as [c|e]; [|discriminate].
    change (Raw.id (located r)) with (Raw.id (recItem r)).
    change (Raw.msgNr (located r)) with (Raw.msgNr (recItem r)).
    destruct (nullish (Raw.id (recItem r) ?? Raw.msgNr (recItem r))) eqn:Hn; intros H.
    + apply IH in H. rewrite filter_cons_True by exact Hn. simpl in *. lia.
    + apply IH in H. rewrite filter_cons_False by (unfold anonymous; congruence). exact H.
Qed.

(** X22.  When flattening returns, it has drawn exactly one random token
    for each raw item that carries neither [id] nor [msgNr], and none for
    the others; nothing else in the world has changed. *)
Theorem flatten_tokens (E : Env) (json : Feed.t) (w w' : World) (out : list Clean.t) :
  flatten E json w = (Returned out, w') ->
  uuids w' = (uuids w + length (filter anonymous (feedRecords json)))%nat /\
  sameButTokens w w'.
Proof.
  rewrite flatten_records. intros H. split.
  - apply (cleanAll_tokens E _ [] w out w' H).
  - pose proof (cleanAll_frame E (feedRecords json) [] w) as Hf. rewrite H in Hf. exact Hf.
Qed.

Lemma flatten_tokens_witness :
  uuids (snd (flatten feedDown feedMixed world0)) = (uuids world0 + 2)%nat.
Proof.
  destruct (flatten feedDown feedMixed world0) as [r w1] eqn:Hf.
  assert (Hr : exists out, r = Returned out).
  { revert Hf. vm_compute. intros [= <- _]. eexists. reflexivity. }
  destruct Hr as [out ->].
  exact (proj1 (flatten_tokens feedDown feedMixed world0 w1 out Hf)).
Defined.

(** ** Further properties of the cache *)

Lemma hasFresh_true w :
  hasFresh w = true -> exists e, cache w = Some e /\ now w - ts e < 60000.
Proof.
  unfold hasFresh. destruct (cache w) as [e|]; [|discriminate].
  intros H. exists e. split; [reflexivity|]. apply Z.ltb_lt. exact H.
Qed.

(** X5.  Whenever [fetchIncidents] returns a list, that list is what the
    cache holds afterwards, and the entry is younger than 60 seconds at that
    moment: no list older than the window ever reaches a caller. *)
Theorem fetchIncidents_Returned_fresh (E : Env) (w w' : World) (out : list Clean.t) :
  fetchIncidents E w = (Returned out, w') ->
  exists e, cache w' = Some e /\ data e = out /\ now w' - ts e < 60000.
Proof.
  destruct (hasFresh w) eqn:Hf.
  - destruct (hasFresh_true w Hf) as (e & Hc & Hage).
    rewrite (fetchIncidents_hit E w e Hc Hage). intros [= <- <-].
    exists e. repeat split; assumption.
  - rewrite (fetchIncidents_miss E w Hf). intros H.
    apply refresh_Returned in H as (Hc & _ & _).
    eexists. split; [exact Hc|]. simpl. split; [reflexivity | lia].
Qed.

Lemma fetchIncidents_Returned_fresh_witness :
  exists e, cache world1 = Some e /\ data e = cleanedA2 /\ now world1 - ts e < 60000.
Proof.
  apply (fetchIncidents_Returned_fresh feedUp world0 world1 cleanedA2).
  vm_compute. reflexivity.
Defined.

Lemma refresh_Threw E w x :
  fst (refresh E w) = Threw x ->
  cache (snd (refresh E w)) = cache w /\
  fetches (snd (refresh E w)) = S (fetches w) /\
  (snd (upstream E (fetches w)) = NetworkFailure -> x = FetchFailed) /\
  (snd (upstream E (fetches w)) = NotOk -> x = HttpError 502 "ANWB feed error").
Proof.
  unfold refresh. rewrite bind_eq. unfold fetch.
  destruct (upstream E (fetches w)) as [took [| |json]]; simpl.
  - intros [= <-]. repeat split. discriminate.
  - intros [= <-]. repeat split. discriminate.
  - rewrite bind_eq.
    match goal with |- context [normalize E json ?v] => set (w1 := v) end.
    pose proof (normalize_frame E json w1) as (H1 & H2 & H3 & H4).
    destruct (normalize E json w1) as [[clean|e] w2]; [discriminate|].
    simpl in *. intros [= <-]. split; [exact H2|]. split; [exact H3|].
    split; discriminate.
Qed.

(** X6.  When [fetchIncidents] throws, the cache is exactly as it was: a
    failed refresh neither clears nor overwrites the entry.  A throw only
    happens when no fresh entry was there, after exactly one request was
    sent, and an entry that has expired is not served in its place.  When
    the request itself failed the error is the one of the request, and when
    the response was not ok it is the 502 gateway error. *)
Theorem fetchIncidents_Threw (E : Env) (w : World) (x : Exn) :
  fst (fetchIncidents E w) = Threw x ->
  cache (snd (fetchIncidents E w)) = cache w /\
  hasFresh w = false /\
  fetches (snd (fetchIncidents E w)) = S (fetches w) /\
  (snd (upstream E (fetches w)) = NetworkFailure -> x = FetchFailed) /\
  (snd (upstream E (fetches w)) = NotOk -> x = HttpError 502 "ANWB feed error").
Proof.
  destruct (hasFresh w) eqn:Hf.
  - destruct (hasFresh_true w Hf) as (e & Hc & Hage).
    rewrite (fetchIncidents_hit E w e Hc Hage). discriminate.
  - rewrite (fetchIncidents_miss E w Hf). intros H.
    destruct (refresh_Threw E w x H) as (H1 & H2 & H3 & H4).
    split; [exact H1|]. split; [reflexivity|]. split; [exact H2|]. split; assumption.
Qed.

Lemma fetchIncidents_Threw_witness :
  cache (snd (fetchIncidents feedDown worldStale)) = cache worldStale /\
  hasFresh worldStale = false /\
  fetches (snd (fetchIncidents feedDown worldStale)) = S (fetches worldStale).
Proof.
  assert (H : fst (fetchIncidents feedDown worldStale) = Threw (HttpError 502 "ANWB feed error"))
    by (vm_compute; reflexivity).
  destruct (fetchIncidents_Threw feedDown worldStale _ H) as (H1 & H2 & H3 & _).
  split; [exact H1|]. split; [exact H2 | exact H3].
Defined.

Lemma normalize_sorted_flat E json w w' out :
  JS.consistent (localeCompare E) ->
  normalize E json w = (Returned out, w') -> StronglySorted (collated E) out.
Proof.
  intros HE. unfold normalize. rewrite bind_eq.
  destruct (flatten E json w) as [[flat|e] w1]; [|discriminate].
  intros [= <- _]. apply sort_byStartDesc, HE.
Qed.

(** X7.  Sortedness is an invariant of the cache.  The order is the
    descending order of [startISO] as [localeCompare] has it, a consistent
    comparator: if what the cache holds is in that order before a call of
    [fetchIncidents] (in particular if it is empty), it is so after the
    call, and a list the call returns is in that order, whether it comes
    from the cache or from the feed. *)
Theorem fetchIncidents_sorted (E : Env) (w : World) :
  JS.consistent (localeCompare E) ->
  cacheSorted E w ->
  cacheSorted E (snd (fetchIncidents E w)) /\
  (forall out, fst (fetchIncidents E w) = Returned out -> StronglySorted (collated E) out).
Proof.
  intros HE Hs. destruct (hasFresh w) eqn:Hf.
  - destruct (hasFresh_true w Hf) as (e & Hc & Hage).
    rewrite (fetchIncidents_hit E w e Hc Hage). simpl. split; [exact Hs|].
    intros out [= <-]. unfold cacheSorted in Hs. rewrite Hc in Hs. exact Hs.
  - rewrite (fetchIncidents_miss E w Hf).
    destruct (refresh E w) as [[out|x] w'] eqn:Hr; simpl.
    + assert (Hout : StronglySorted (collated E) out).
      { revert Hr. unfold refresh. rewrite bind_eq. unfold fetch.
        destruct (upstream E (fetches w)) as [took [| |json]]; try discriminate.
        rewrite bind_eq.
        match goal with |- context [normalize E json ?v] => set (w1 := v) end.
        destruct (normalize E json w1) as [[clean|e] w2] eqn:Hn; [|discriminate].
        intros [= <- _].
        apply (normalize_sorted_flat E json w1 w2 clean HE Hn). }
      apply refresh_Returned in Hr as (Hc & _ & _).
      split; [|intros out' [= <-]; exact Hout].
      unfold cacheSorted. rewrite Hc. exact Hout.
    + pose proof (refresh_Threw E w x) as Ht. rewrite Hr in Ht.
      destruct (Ht eq_refl) as (Hc & _). simpl in Hc.
      split; [|discriminate]. unfold cacheSorted. rewrite Hc. exact Hs.
Qed.

Lemma fetchIncidents_sorted_witness :
  cacheSorted feedUp (snd (fetchIncidents feedUp worldStale)) /\
  (forall out, fst (fetchIncidents feedUp worldStale) = Returned out ->
               StronglySorted (collated feedUp) out).
Proof.
  apply (fetchIncidents_sorted feedUp worldStale alphabetic_consistent).
  unfold cacheSorted. simpl. repeat constructor.
Defined.

(** * Further properties of [bot.ts] *)

(** ** The blank guard *)

Lemma trimStart_allSpace s : allSpace s = true -> JS.trimStart s = "".
Proof.
  induction s as [|c s IH]; simpl; [reflexivity|].
  destruct (JS.isSpace c); simpl; [exact IH | discriminate].
Qed.

Lemma trimStart_not_allSpace s :
  allSpace s = false ->
  exists c t, JS.trimStart s = String c t /\ JS.isSpace c = false.
Proof.
  induction s as [|c s IH]; simpl; [discriminate|].
  destruct (JS.isSpace c) eqn:Hc; simpl; [exact IH|].
  intros _. exists c, s. split; [reflexivity | exact Hc].
Qed.

Lemma trimEnd_head c t : JS.isSpace c = false -> exists t', JS.trimEnd (String c t) = String c t'.
Proof.
  intros Hc. simpl. rewrite Hc. destruct (JS.trimEnd t); eexists; reflexivity.
Qed.

(** A string trims to nothing exactly when it is made of white space. *)
Lemma trim_empty_iff s : JS.trim s = "" <-> allSpace s = true.
Proof.
  unfold JS.trim. destruct (allSpace s) eqn:Hs.
  - rewrite (trimStart_allSpace s Hs). split; reflexivity.
  - destruct (trimStart_not_allSpace s Hs) as (c & t & -> & Hc).
    destruct (trimEnd_head c t Hc) as [t' ->]. split; discriminate.
Qed.

(** X8.  A query made of white space only (the empty query included) is
    answered with the fixed request to try again; the turn invokes no model
    capability, sends no request to the feed and leaves the cache alone. *)
Theorem getReply_blank (E : Env) (query : string) (history : list TMessage) (w : World) :
  allSpace query = true ->
  getReply E query history w = (Returned "I didn't receive a message. Please try again.", w).
Proof.
  intros H. apply trim_empty_iff in H. unfold getReply. rewrite H. reflexivity.
Qed.

Lemma getReply_blank_witness :
  getReply feedDown "    " noMessages worldStale =
  (Returned "I didn't receive a message. Please try again.", worldStale).
Proof. apply (getReply_blank feedDown "    " noMessages worldStale). reflexivity. Defined.

(** ** What a turn may do to the world *)

Lemma refresh_fails_calls E w : calls (snd (refresh E w)) = calls w.
Proof.
  unfold refresh. rewrite bind_eq. unfold fetch.
  destruct (upstream E (fetches w)) as [took [| |json]]; try reflexivity.
  rewrite bind_eq.
  match goal with |- context [normalize E json ?v] => set (w1 := v) end.
  pose proof (normalize_frame E json w1) as (H1 & H2 & H3 & H4).
  destruct (normalize E json w1) as [[clean|e] w2]; simpl in *; exact H4.
Qed.

Lemma fetchIncidents_frame E w :
  calls (snd (fetchIncidents E w)) = calls w /\
  (fetches (snd (fetchIncidents E w)) = fetches w \/
   fetches (snd (fetchIncidents E w)) = S (fetches w)).
Proof.
  destruct (hasFresh w) eqn:Hf.
  - destruct (hasFresh_true w Hf) as (e & Hc & Hage).
    rewrite (fetchIncidents_hit E w e Hc Hage). simpl. split; [reflexivity | left; reflexivity].
  - rewrite (fetchIncidents_miss E w Hf).
    destruct (refresh E w) as [[out|x] w'] eqn:Hr; simpl.
    + apply refresh_Returned in Hr as (_ & Hfe & Hca). split; [exact Hca | right; exact Hfe].
    + pose proof (refresh_fails_calls E w) as Hca. rewrite Hr in Hca. simpl in Hca.
      pose proof (refresh_Threw E w x) as Ht. rewrite Hr in Ht.
      destruct (Ht eq_refl) as (_ & Hfe & _). split; [exact Hca | right; exact Hfe].
Qed.

(** X9.  Whatever the query, the extraction result and the state of the
    feed, one turn sends at most one request to the feed and invokes at most
    two model capabilities: nothing, or the extraction alone (when retrieval
    then throws), or the extraction followed by exactly one of the answering
    capabilities.  The extraction is never invoked twice and never after an
    answering capability. *)
Theorem getReply_turn_bounds (E : Env) (query : string) (history : list TMessage) (w : World) :
  let w' := snd (getReply E query history w) in
  (fetches w' = fetches w \/ fetches w' = S (fetches w)) /\
  exists l, calls w' = calls w ++ l /\ turnCalls query history l.
Proof.
  cbv zeta.
  assert (Hnone : forall r : string,
            (fetches (snd (ret r w)) = fetches w \/ fetches (snd (ret r w)) = S (fetches w)) /\
            exists l, calls (snd (ret r w)) = calls w ++ l /\ turnCalls query history l).
  { intros r. simpl. split; [left; reflexivity|]. exists []. rewrite app_nil_r.
    split; [reflexivity | left; reflexivity]. }
  destruct (String.eqb_spec (JS.trim query) "") as [Hq|Hq].
  { unfold getReply. rewrite Hq. apply Hnone. }
  destruct (RegExp.test true greetingRE (JS.trim query)) eqn:Hg.
  { unfold getReply. rewrite (eqb_empty_false _ Hq), Hg. apply Hnone. }
  rewrite (getReply_past_guards E query history w (conj Hq Hg)). cbv zeta.
  set (e := entitiesOf E query history). set (w1 := recorded (extraction query history) w).
  destruct (fetchIncidents_frame E w1) as (Hcalls & Hfetch).
  destruct (fetchIncidents E w1) as [[allIncidents|x] w2]; simpl in Hcalls, Hfetch.
  - assert (Hone : forall (c : ModelCall) (r : string),
               (forall q h, c <> ExtractEntities q h) ->
               (fetches (snd (invoke c r w2)) = fetches w \/
                fetches (snd (invoke c r w2)) = S (fetches w)) /\
               exists l, calls (snd (invoke c r w2)) = calls w ++ l /\
                         turnCalls query history l).
    { intros c r Hc. simpl. split; [exact Hfetch|].
      exists [extraction query history; c]. rewrite Hcalls. simpl.
      rewrite <- app_assoc. split; [reflexivity|].
      right. right. exists c. split; [reflexivity | exact Hc]. }
    destruct (present (roads e) || present (categories e)).
    + apply Hone. discriminate.
    + destruct (nonEmptyString (origin e) && nonEmptyString (destination e));
        apply Hone; discriminate.
  - simpl. split; [exact Hfetch|]. exists [extraction query history].
    rewrite Hcalls. split; [reflexivity | right; left; reflexivity].
Qed.

(** ** The other branches of the router *)

Lemma filter_none {A : Type} (P : A -> Prop) `{forall x, Decision (P x)} (l : list A) :
  (forall x, ~ P x) -> filter P l = [].
Proof.
  intros HP. induction l as [|x l IH]; [reflexivity|].
  rewrite filter_cons_False by apply HP. exact IH.
Qed.

Lemma getReply_route_branch E query history w w' allIncidents o d :
  reachesModel query ->
  roads (entitiesOf E query history) = None ->
  categories (entitiesOf E query history) = None ->
  origin (entitiesOf E query history) = Some o -> o <> "" ->
  destination (entitiesOf E query history) = Some d -> d <> "" ->
  fetchIncidents E (recorded (extraction query history) w) = (Returned allIncidents, w') ->
  getReply E query history w =
  (Returned (llmRoute E (filter (fun i => isIncidentOnRoute i o d = true) allIncidents) o d),
   recorded (SummarizeIncidentsForRoute
               (filter (fun i => isIncidentOnRoute i o d = true) allIncidents) o d) w').
Proof.
  intros Hq Hr Hc Ho Hone Hd Hdne Hfetch.
  rewrite (getReply_past_guards E query history w Hq). simpl.
  rewrite Hfetch, Hr, Hc, Ho, Hd. simpl.
  rewrite (eqb_empty_false o Hone), (eqb_empty_false d Hdne). reflexivity.
Qed.

Lemma route_unknown_empty (allIncidents : list Clean.t) o d :
  routeMap !! routeKeyOf o d = None ->
  filter (fun i => isIncidentOnRoute i o d = true) allIncidents = [].
Proof.
  intros Hnone. apply filter_none. intros i.
  unfold isIncidentOnRoute. rewrite routeKey_agrees, Hnone. simpl. discriminate.
Qed.

(** X10.  When neither a [roads] nor a [categories] key was extracted and
    both an origin and a destination were, the router hands the route
    summary exactly the incidents whose road the table lists for that pair,
    in feed order, with origin and destination as extracted; for a pair the
    table does not know that is the empty list, whatever the feed holds. *)
Theorem getReply_route (E : Env) (query : string) (history : list TMessage)
    (w w' : World) (allIncidents : list Clean.t) (o d : string) :
  reachesModel query ->
  roads (entitiesOf E query history) = None ->
  categories (entitiesOf E query history) = None ->
  origin (entitiesOf E query history) = Some o -> o <> "" ->
  destination (entitiesOf E query history) = Some d -> d <> "" ->
  fetchIncidents E (recorded (extraction query history) w) = (Returned allIncidents, w') ->
  let onRoute := filter (fun i => isIncidentOnRoute i o d = true) allIncidents in
  getReply E query history w =
  (Returned (llmRoute E onRoute o d),
   recorded (SummarizeIncidentsForRoute onRoute o d) w') /\
  (routeMap !! routeKeyOf o d = None -> onRoute = []).
Proof.
  intros Hq Hr Hc Ho Hone Hd Hdne Hfetch onRoute. split.
  - apply (getReply_route_branch E query history w w' allIncidents o d); assumption.
  - apply route_unknown_empty.
Qed.

Lemma getReply_route_witness :
  getReply (envWith NotOk unknownRoute) "From Groningen to Maastricht?" noMessages
    worldCached =
  (Returned "route",
   recorded (SummarizeIncidentsForRoute [] "Groningen" "Maastricht")
     (recorded (ExtractEntities "From Groningen to Maastricht?" noMessages) worldCached)).
Proof.
  apply (proj1 (getReply_route (envWith NotOk unknownRoute)
                  "From Groningen to Maastricht?" noMessages worldCached
                  (recorded (ExtractEntities "From Groningen to Maastricht?" noMessages)
                     worldCached)
                  [a2Accident; a2Construction; a4Jam] "Groningen" "Maastricht"
                  ltac:(split; [discriminate | vm_compute; reflexivity])
                  ltac:(reflexivity) ltac:(reflexivity)
                  ltac:(reflexivity) ltac:(discriminate)
                  ltac:(reflexivity) ltac:(discriminate)
                  ltac:(vm_compute; reflexivity))).
Defined.



(** X12.  [getReply] does not catch what [fetchIncidents] throws: past the
    two guards, whatever was extracted, a turn whose retrieval throws ends
    with the same error, the 502 gateway error when the feed answers with a
    response that is not ok. *)
Theorem getReply_rethrows (E : Env) (query : string) (history : list TMessage) (w : World) :
  reachesModel query ->
  (forall x, fst (fetchIncidents E (recorded (extraction query history) w)) = Threw x ->
             fst (getReply E query history w) = Threw x) /\
  (hasFresh w = false -> snd (upstream E (fetches w)) = NotOk ->
   fst (getReply E query history w) = Threw (HttpError 502 "ANWB feed error")).
Proof.
  intros Hq. rewrite (getReply_past_guards E query history w Hq). simpl. split.
  - intros x Hx.
    destruct (fetchIncidents E (recorded (extraction query history) w)) as [[out|x'] w'];
      [discriminate|]. simpl in *. congruence.
  - intros Hstale Hdown.
    rewrite (fetchIncidents_miss E (recorded (extraction query history) w) Hstale).
    unfold refresh. rewrite bind_eq. unfold fetch. simpl.
    destruct (upstream E (fetches w)) as [took res]. simpl in Hdown. subst res. reflexivity.
Qed.

Lemma getReply_rethrows_witness :
  fst (getReply (envWith NotOk a2ConstructionAsked) "Roadworks on the A2?" noMessages worldStale)
  = Threw (HttpError 502 "ANWB feed error").
Proof.
  apply (proj2 (getReply_rethrows (envWith NotOk a2ConstructionAsked)
                  "Roadworks on the A2?" noMessages worldStale
                  ltac:(split; [discriminate | vm_compute; reflexivity]))).
  - reflexivity.
  - reflexivity.
Defined.

(** ** Letter case and white space in the route heuristic *)

Lemma lower_upper c : JS.lower (JS.upper c) = JS.lower c.
Proof. destruct c as [[] [] [] [] [] [] [] []]; reflexivity. Qed.

Lemma upper_lower c : JS.upper (JS.lower c) = JS.upper c.
Proof. destruct c as [[] [] [] [] [] [] [] []]; reflexivity. Qed.

Lemma isSpace_upper c : JS.isSpace (JS.upper c) = JS.isSpace c.
Proof. destruct c as [[] [] [] [] [] [] [] []]; reflexivity. Qed.

Lemma toLowerCase_toUpperCase s : JS.toLowerCase (JS.toUpperCase s) = JS.toLowerCase s.
Proof.
  unfold JS.toLowerCase, JS.toUpperCase.
  induction s as [|c s IH]; [reflexivity|]. cbn [JS.mapChars]. rewrite lower_upper, IH. reflexivity.
Qed.

Lemma toUpperCase_toLowerCase s : JS.toUpperCase (JS.toLowerCase s) = JS.toUpperCase s.
Proof.
  unfold JS.toLowerCase, JS.toUpperCase.
  induction s as [|c s IH]; [reflexivity|]. cbn [JS.mapChars]. rewrite upper_lower, IH. reflexivity.
Qed.

Lemma trimStart_upper s : JS.trimStart (JS.toUpperCase s) = JS.toUpperCase (JS.trimStart s).
Proof.
  induction s as [|c s IH]; simpl; [reflexivity|].
  rewrite isSpace_upper. destruct (JS.isSpace c); [exact IH | reflexivity].
Qed.

Lemma trimEnd_upper s : JS.trimEnd (JS.toUpperCase s) = JS.toUpperCase (JS.trimEnd s).
Proof.
  induction s as [|c s IH]; simpl; [reflexivity|].
  unfold JS.toUpperCase in IH. rewrite IH, isSpace_upper.
  destruct (JS.trimEnd s) as [|d t]; simpl; [|reflexivity].
  destruct (JS.isSpace c); reflexivity.
Qed.

Lemma trim_upper s : JS.trim (JS.toUpperCase s) = JS.toUpperCase (JS.trim s).
Proof. unfold JS.trim. rewrite trimStart_upper. apply trimEnd_upper. Qed.

Lemma trimEnd_idem s : JS.trimEnd (JS.trimEnd s) = JS.trimEnd s.
Proof.
  induction s as [|c s IH]; [reflexivity|]. simpl.
  destruct (JS.trimEnd s) as [|d t] eqn:Ht.
  - destruct (JS.isSpace c) eqn:Hc; [reflexivity|]. simpl. rewrite Hc. reflexivity.
  - change (JS.trimEnd (String c (String d t)))
      with (match JS.trimEnd (String d t) with
            | EmptyString => if JS.isSpace c then EmptyString else String c EmptyString
            | String _ _ as t' => String c t'
            end).
    rewrite IH. reflexivity.
Qed.

Lemma trimStart_head s :
  JS.trimStart s = "" \/ exists c t, JS.trimStart s = String c t /\ JS.isSpace c = false.
Proof.
  destruct (allSpace s) eqn:Hs.
  - left. apply trimStart_allSpace. exact Hs.
  - right. apply trimStart_not_allSpace. exact Hs.
Qed.

(** Trimming twice is trimming once. *)
Lemma trim_idem s : JS.trim (JS.trim s) = JS.trim s.
Proof.
  unfold JS.trim at 1 2. fold (JS.trim s).
  assert (H : JS.trimStart (JS.trim s) = JS.trim s).
  { unfold JS.trim. destruct (trimStart_head s) as [-> | (c & t & -> & Hc)]; [reflexivity|].
    destruct (trimEnd_head c t Hc) as [t' Ht]. rewrite Ht. simpl. rewrite Hc. reflexivity. }
  rewrite H. unfold JS.trim. apply trimEnd_idem.
Qed.

(** X13.  On ASCII names the route heuristic ignores letter case and
    surrounding white space: an incident whose road is written in lower
    case, asked about with origin and destination trimmed and in capitals,
    gets the same answer as the original incident and city names. *)
Theorem isIncidentOnRoute_insensitive (incident lowered : Clean.t) (origin destination : string) :
  isASCII (Clean.road incident) = true ->
  isASCII origin = true ->
  isASCII destination = true ->
  Clean.road lowered = JS.toLowerCase (Clean.road incident) ->
  isIncidentOnRoute lowered (JS.toUpperCase (JS.trim origin))
    (JS.toUpperCase (JS.trim destination))
  = isIncidentOnRoute incident origin destination.
Proof.
  intros _ _ _ Hroad. unfold isIncidentOnRoute. rewrite !routeKey_agrees. unfold routeKeyOf.
  rewrite !trim_upper, !trim_idem, !toLowerCase_toUpperCase, Hroad, toUpperCase_toLowerCase.
  reflexivity.
Qed.

Lemma isIncidentOnRoute_insensitive_witness :
  isIncidentOnRoute (incidentOn "a13") (JS.toUpperCase (JS.trim "  Amsterdam "))
    (JS.toUpperCase (JS.trim "rotterdam  "))
  = isIncidentOnRoute (incidentOn "A13") "  Amsterdam " "rotterdam  ".
Proof.
  apply (isIncidentOnRoute_insensitive (incidentOn "A13") (incidentOn "a13")
           "  Amsterdam " "rotterdam  "); reflexivity.
Defined.

(** ** Query rewriting *)

Lemma search_false i r prev s :
  RegExp.search i r prev s = false ->
  RegExp.matchesAt i r (prev, s) = false /\
  match s with
  | String c s' => RegExp.search i r (Some c) s' = false
  | EmptyString => True
  end.
Proof.
  destruct s as [|c s]; simpl; intros H; apply orb_false_iff in H as [H1 H2];
    split; auto.
Qed.

(** Where the pattern matches nowhere, replacing changes nothing. *)
Lemma replaceAll_no_match i r by_ s :
  RegExp.test i r s = false -> RegExp.replaceAll i r by_ s = s.
Proof.
  unfold RegExp.test, RegExp.replaceAll. generalize (@None ascii) as prev.
  induction s as [|c s IH]; intros prev H; apply search_false in H as [Hm Hs]; simpl.
  - rewrite Hm. reflexivity.
  - unfold RegExp.matchesAt in Hm.
    destruct (RegExp.exec i r (prev, String c s)); [|discriminate].
    rewrite (IH _ Hs). reflexivity.
Qed.

(** X14.  A query in which none of the four synonym patterns occurs reaches
    the extraction unchanged. *)
Theorem preprocessQuery_unchanged (query : string) (history : list TMessage) :
  RegExp.test true jamsRE query = false ->
  RegExp.test true roadworksRE query = false ->
  RegExp.test true problemsRE query = false ->
  RegExp.test true everywhereRE query = false ->
  preprocessQuery query history = query.
Proof.
  intros H1 H2 H3 H4. unfold preprocessQuery.
  rewrite (replaceAll_no_match _ _ _ _ H1), (replaceAll_no_match _ _ _ _ H2),
    (replaceAll_no_match _ _ _ _ H3), (replaceAll_no_match _ _ _ _ H4).
  reflexivity.
Qed.

Lemma preprocessQuery_unchanged_witness :
  preprocessQuery "Any accidents on the A2, or a jamsession?" noMessages =
  "Any accidents on the A2, or a jamsession?".
Proof.
  apply (preprocessQuery_unchanged "Any accidents on the A2, or a jamsession?" noMessages);
    vm_compute; reflexivity.
Defined.

(** ** The greeting guard *)

Lemma lower_idem c : JS.lower (JS.lower c) = JS.lower c.
Proof. destruct c as [[] [] [] [] [] [] [] []]; reflexivity. Qed.

Lemma isWord_lower c : JS.isWord (JS.lower c) = JS.isWord c.
Proof. destruct c as [[] [] [] [] [] [] [] []]; reflexivity. Qed.

(** With the [i] flag a literal word matches any spelling of it in upper or
    lower case, in one way: by consuming it. *)
Lemma exec_lit_ignoreCase g s tail prev :
  JS.toLowerCase s = JS.toLowerCase g ->
  RegExp.exec true (RegExp.lit g) (prev, s +:+ tail) = [(lastChar prev s, tail)].
Proof.
  revert s prev. induction g as [|c g IH]; intros s prev H.
  - destruct s; [reflexivity | discriminate].
  - destruct s as [|d s]; [discriminate|].
    unfold JS.toLowerCase in H. cbn [JS.mapChars] in H. injection H as Hc Hs.
    rewrite append_cons. cbn [RegExp.lit RegExp.exec snd].
    unfold RegExp.sameChar. rewrite Hc, Ascii.eqb_refl.
    cbn [flat_map]. rewrite app_nil_r. rewrite (IH s (Some d) Hs). reflexivity.
Qed.

Lemma exec_alts_In i rs r p p' :
  r ∈ rs -> p' ∈ RegExp.exec i r p -> p' ∈ RegExp.exec i (RegExp.alts rs) p.
Proof.
  induction rs as [|r0 rs IH]; intros Hr Hp; [apply elem_of_nil in Hr; contradiction|].
  destruct rs as [|r1 rs].
  - apply list_elem_of_singleton in Hr. subst. exact Hp.
  - change (RegExp.alts (r0 :: r1 :: rs)) with (RegExp.Alt r0 (RegExp.alts (r1 :: rs))).
    cbn [RegExp.exec]. apply elem_of_app.
    apply elem_of_cons in Hr as [-> | Hr]; [left; exact Hp | right; apply IH; assumption].
Qed.

Lemma flat_map_nonempty {A B : Type} (f : A -> list B) (l : list A) (x : A) :
  x ∈ l -> f x <> [] -> flat_map f l <> [].
Proof.
  induction l as [|y l IH]; intros Hx Hf; [apply elem_of_nil in Hx; contradiction|].
  simpl. apply elem_of_cons in Hx as [-> | Hx].
  - destruct (f y); [contradiction | discriminate].
  - intros H. apply app_eq_nil in H as [_ H]. exact (IH Hx Hf H).
Qed.

Lemma lastChar_mapChars f prev s :
  lastChar (option_map f prev) (JS.mapChars f s) = option_map f (lastChar prev s).
Proof.
  revert prev. induction s as [|c s IH]; intros prev; [reflexivity|].
  simpl. apply (IH (Some c)).
Qed.

Lemma greeting_last_isWord g s :
  g ∈ greetingWords -> JS.toLowerCase s = g ->
  exists d, lastChar None s = Some d /\ JS.isWord d = true.
Proof.
  intros Hg Hs.
  pose proof (lastChar_mapChars JS.lower None s) as Hl.
  fold (JS.toLowerCase s) in Hl. rewrite Hs in Hl. simpl in Hl.
  destruct (lastChar None s) as [d|].
  - exists d. split; [reflexivity|]. rewrite <- isWord_lower.
    simpl in Hl. unfold greetingWords in Hg.
    repeat (apply elem_of_cons in Hg as [-> | Hg];
            [injection Hl as Hl; rewrite <- Hl; reflexivity|]).
    apply elem_of_nil in Hg. contradiction.
  - exfalso. simpl in Hl. unfold greetingWords in Hg.
    repeat (apply elem_of_cons in Hg as [-> | Hg]; [discriminate|]).
    apply elem_of_nil in Hg. exact Hg.
Qed.

Lemma exec_Seq i r1 r2 p :
  RegExp.exec i (RegExp.Seq r1 r2) p = flat_map (RegExp.exec i r2) (RegExp.exec i r1 p).
Proof. reflexivity. Qed.

Lemma search_here i r prev q :
  RegExp.matchesAt i r (prev, q) = true -> RegExp.search i r prev q = true.
Proof. destruct q; cbn [RegExp.search]; intros ->; reflexivity. Qed.

Lemma greeting_word_In g :
  g ∈ greetingWords ->
  RegExp.lit g ∈
    [RegExp.lit "hi"; RegExp.lit "hello"; RegExp.lit "hey"; RegExp.lit "hallo";
     seqs [RegExp.lit "good"; RegExp.Space;
           RegExp.words ["morning"; "afternoon"; "evening"]]].
Proof.
  unfold greetingWords. intros Hg.
  repeat (apply elem_of_cons in Hg as [-> | Hg];
          [repeat (first [apply list_elem_of_here | apply list_elem_of_further])|]).
  apply elem_of_nil in Hg. contradiction.
Qed.

Lemma greetingRE_matches g s tail :
  g ∈ greetingWords -> JS.toLowerCase s = g -> endsWord tail ->
  RegExp.test true greetingRE (s +:+ tail) = true.
Proof.
  intros Hg Hs Htail.
  assert (Hlow : JS.toLowerCase s = JS.toLowerCase g).
  { rewrite <- Hs. unfold JS.toLowerCase.
    clear. induction s as [|c s IH]; [reflexivity|].
    cbn [JS.mapChars]. rewrite lower_idem, <- IH. reflexivity. }
  destruct (greeting_last_isWord g s Hg Hs) as (d & Hd & Hword).
  apply search_here. unfold RegExp.matchesAt, greetingRE, seqs. cbn [fold_right].
  match goal with
  | |- context [RegExp.Seq (RegExp.alts ?l) _] => set (A := RegExp.alts l)
  end.
  rewrite exec_Seq. cbn [RegExp.exec fst flat_map]. rewrite app_nil_r.
  match goal with
  | |- match ?l with [] => false | _ :: _ => true end = true =>
      assert (Hne : l <> []); [|destruct l; [contradiction | reflexivity]]
  end.
  apply (flat_map_nonempty _ _ (Some d, tail)).
  - apply (exec_alts_In true _ (RegExp.lit g)); [apply greeting_word_In, Hg|].
    rewrite (exec_lit_ignoreCase g s tail None Hlow), Hd. apply list_elem_of_here.
  - cbn beta. unfold RegExp.wordBefore, RegExp.wordAfter. cbn [fst snd]. rewrite Hword.
    destruct tail as [|c t]; simpl in Htail; [|rewrite Htail]; discriminate.
Qed.

(** X15.  A turn whose trimmed query opens with hi, hello, hey or hallo, in
    any mix of upper and lower case, as a whole word, is answered with the
    fixed greeting whatever follows the word; the turn invokes no model
    capability and sends no request to the feed, so a question that comes
    after the greeting is not looked at. *)
Theorem getReply_greeting (E : Env) (query : string) (history : list TMessage)
    (w : World) (g s tail : string) :
  g ∈ greetingWords ->
  JS.toLowerCase s = g ->
  endsWord tail ->
  JS.trim query = s +:+ tail ->
  getReply E query history w =
  (Returned "Hello! How can I assist you with traffic information today?", w).
Proof.
  intros Hg Hs Htail Hq. unfold getReply. rewrite Hq.
  rewrite (greetingRE_matches g s tail Hg Hs Htail).
  destruct s as [|c s].
  - exfalso. simpl in Hs. subst g. unfold greetingWords in Hg.
    repeat (apply elem_of_cons in Hg as [Hg | Hg]; [discriminate|]).
    apply elem_of_nil in Hg. exact Hg.
  - reflexivity.
Qed.

Lemma getReply_greeting_witness :
  getReply feedDown "  HeLLo, any jams on the A2?" noMessages worldStale =
  (Returned "Hello! How can I assist you with traffic information today?", worldStale).
Proof.
  apply (getReply_greeting feedDown "  HeLLo, any jams on the A2?" noMessages worldStale
           "hello" "HeLLo" ", any jams on the A2?").
  - apply list_elem_of_further, list_elem_of_here.
  - reflexivity.
  - reflexivity.
  - reflexivity.
Defined.

(** * Properties of [llm.ts] and of the router over it *)

Example markdown_ex :
  Llm.markdownFromGroups (Llm.groupByCategory [a4Jam; a2Accident]) =
  "**Accidents**" +:+ Llm.nl +:+ "• A2 — A2 Utrecht" +:+ Llm.nl +:+
  "**Congestion**" +:+ Llm.nl +:+ "• A4 — A4 Leiden, delay ~5 min".
Proof. vm_compute. reflexivity. Qed.

Lemma fold_push (l : list Clean.t) (acc : Llm.Groups) (c : Category) :
  fold_left (fun acc inc => Llm.push acc (Clean.category inc) inc) l acc c =
  acc c ++ filter (fun i => Clean.category i = c) l.
Proof.
  revert acc. induction l as [|i l IH]; intros acc; simpl.
  - rewrite app_nil_r. reflexivity.
  - rewrite IH. unfold Llm.push at 1.
    destruct (decide (c = Clean.category i)) as [->|Hne].
    + rewrite filter_cons_True by reflexivity. rewrite <- app_assoc. reflexivity.
    + rewrite filter_cons_False by congruence. reflexivity.
Qed.

(** X16.  [groupByCategory] splits a list of incidents by category without
    losing, repeating or reordering any: the group of a category is the
    sublist of the incidents of that category, in their order. *)
Theorem groupByCategory_filter (l : list Clean.t) (c : Category) :
  Llm.groupByCategory l c = filter (fun i => Clean.category i = c) l.
Proof. unfold Llm.groupByCategory. rewrite fold_push. reflexivity. Qed.

Lemma filter_map_comm {A : Type} (f : A -> A) (P : A -> Prop) `{forall x, Decision (P x)}
    (l : list A) :
  (forall x, P (f x) <-> P x) -> filter P (map f l) = map f (filter P l).
Proof.
  intros HP. induction l as [|x l IH]; [reflexivity|]. simpl.
  destruct (decide (P x)) as [Hx|Hx].
  - rewrite (filter_cons_True P (f x)) by (apply HP; exact Hx).
    rewrite (filter_cons_True P x) by exact Hx. simpl. f_equal. exact IH.
  - rewrite (filter_cons_False P (f x)) by (rewrite HP; exact Hx).
    rewrite (filter_cons_False P x) by exact Hx. exact IH.
Qed.

Lemma pieces_withoutZeroDelay inc : Llm.pieces (withoutZeroDelay inc) = Llm.pieces inc.
Proof.
  unfold Llm.pieces, withoutZeroDelay. simpl.
  destruct (Clean.delay inc) as [[|p|p]|]; reflexivity.
Qed.

Lemma fold_lines_map (f : Clean.t -> Clean.t) (incs : list Clean.t) (out : string) :
  (forall i, Llm.pieces (f i) = Llm.pieces i) ->
  fold_left (fun out inc => out +:+ "• " +:+ Llm.join ", " (Llm.pieces inc) +:+ Llm.nl)
    (map f incs) out =
  fold_left (fun out inc => out +:+ "• " +:+ Llm.join ", " (Llm.pieces inc) +:+ Llm.nl)
    incs out.
Proof.
  intros Hf. revert out. induction incs as [|i incs IH]; intros out; [reflexivity|].
  cbn [map fold_left]. rewrite Hf. apply IH.
Qed.

Lemma markdown_fold_map (f : Clean.t -> Clean.t) (groups groups' : Llm.Groups)
    (cats : list Category) (out : string) :
  (forall i, Llm.pieces (f i) = Llm.pieces i) ->
  (forall c, groups' c = map f (groups c)) ->
  fold_left
    (fun out cat =>
       match groups' cat with
       | [] => out
       | incs =>
           fold_left (fun out inc => out +:+ "• " +:+ Llm.join ", " (Llm.pieces inc) +:+ Llm.nl)
             incs (out +:+ "**" +:+ Llm.labels cat +:+ "**" +:+ Llm.nl)
       end)
    cats out =
  fold_left
    (fun out cat =>
       match groups cat with
       | [] => out
       | incs =>
           fold_left (fun out inc => out +:+ "• " +:+ Llm.join ", " (Llm.pieces inc) +:+ Llm.nl)
             incs (out +:+ "**" +:+ Llm.labels cat +:+ "**" +:+ Llm.nl)
       end)
    cats out.
Proof.
  intros Hf Hg. revert out.
  induction cats as [|cat cats IH]; intros out; [reflexivity|].
  cbn [fold_left]. rewrite Hg.
  destruct (groups cat) as [|i incs]; cbn [map]; [apply IH|].
  rewrite Hf, (fold_lines_map f incs _ Hf). apply IH.
Qed.

Lemma markdownFromGroups_map (f : Clean.t -> Clean.t) (groups groups' : Llm.Groups) :
  (forall i, Llm.pieces (f i) = Llm.pieces i) ->
  (forall c, groups' c = map f (groups c)) ->
  Llm.markdownFromGroups groups' = Llm.markdownFromGroups groups.
Proof.
  intros Hf Hg. unfold Llm.markdownFromGroups. f_equal.
  apply (markdown_fold_map f); assumption.
Qed.

(** X17.  In the text prepared for the model an incident with a delay of 0
    minutes reads exactly like one without a delay: dropping the delays of 0
    from a list of incidents changes nothing in its markdown. *)
Theorem markdown_hides_zero_delay (l : list Clean.t) :
  Llm.markdownFromGroups (Llm.groupByCategory (map withoutZeroDelay l)) =
  Llm.markdownFromGroups (Llm.groupByCategory l).
Proof.
  apply (markdownFromGroups_map withoutZeroDelay); [apply pieces_withoutZeroDelay|].
  intros c. unfold Llm.groupByCategory. rewrite !fold_push. simpl.
  apply filter_map_comm. intros i. reflexivity.
Qed.

(** ** The router over [llm.ts] *)

(** X18.  Asked for a route between two places that the table does not
    list as a pair, the bot answers that the route appears clear of reported
    incidents, whatever incidents the feed holds and whatever the model
    would say to a request for a summary. *)
Theorem served_unknown_route (S : Llm.Service) (base : Env) (query : string)
    (history : list TMessage) (w w' : World) (allIncidents : list Clean.t) (o d : string) :
  reachesModel query ->
  roads (entitiesOf (served S base) query history) = None ->
  categories (entitiesOf (served S base) query history) = None ->
  origin (entitiesOf (served S base) query history) = Some o -> o <> "" ->
  destination (entitiesOf (served S base) query history) = Some d -> d <> "" ->
  routeMap !! routeKeyOf o d = None ->
  fetchIncidents (served S base) (recorded (extraction query history) w)
    = (Returned allIncidents, w') ->
  fst (getReply (served S base) query history w) =
  Returned "The route appears clear of reported incidents at this time.".
Proof.
  intros Hq Hr Hc Ho Hone Hd Hdne Hnone Hfetch.
  rewrite (getReply_route_branch (served S base) query history w w' allIncidents o d
             Hq Hr Hc Ho Hone Hd Hdne Hfetch).
  rewrite (route_unknown_empty allIncidents o d Hnone). reflexivity.
Qed.

Lemma served_unknown_route_witness :
  fst (getReply (served (serviceEcho unknownRoute) feedDown)
         "From Groningen to Maastricht?" noMessages worldCached) =
  Returned "The route appears clear of reported incidents at this time.".
Proof.
  apply (served_unknown_route (serviceEcho unknownRoute) feedDown
           "From Groningen to Maastricht?" noMessages worldCached
           (recorded (ExtractEntities "From Groningen to Maastricht?" noMessages) worldCached)
           [a2Accident; a2Construction; a4Jam] "Groningen" "Maastricht").
  - split; [discriminate | vm_compute; reflexivity].
  - reflexivity.
  - reflexivity.
  - reflexivity.
  - discriminate.
  - reflexivity.
  - discriminate.
  - vm_compute. reflexivity.
  - vm_compute. reflexivity.
Defined.

Lemma getReply_chat_branch E query history w w' allIncidents :
  reachesModel query ->
  entitiesOf E query history = silentEntities ->
  fetchIncidents E (recorded (extraction query history) w) = (Returned allIncidents, w') ->
  getReply E query history w =
  (Returned (llmChat E (JS.trim query) history),
   recorded (NonTrafficReply (JS.trim query) history) w').
Proof.
  intros Hq He Hfetch.
  rewrite (getReply_past_guards E query history w Hq). simpl.
  rewrite Hfetch, He. reflexivity.
Qed.



(** X20.  When every call to the model fails, and the apology that
    [callLLM] then returns is not JSON, a turn that gets past the guards and
    retrieves the incidents answers with that apology about the AI service:
    the failure of the model never makes the turn throw. *)
Theorem served_model_down (S : Llm.Service) (base : Env) (query : string)
    (history : list TMessage) (w w' : World) (allIncidents : list Clean.t) :
  reachesModel query ->
  (forall r, Llm.create S r = Llm.Rejects) ->
  Llm.JSON_parse S Llm.unreachable = None ->
  fetchIncidents (served S base) (recorded (extraction query history) w)
    = (Returned allIncidents, w') ->
  fst (getReply (served S base) query history w) = Returned Llm.unreachable.
Proof.
  intros Hq Hdown Hparse Hfetch.
  assert (Hcall : forall p m t j, Llm.callLLM S p m t j = Llm.unreachable).
  { intros p m t j. unfold Llm.callLLM. rewrite Hdown. reflexivity. }
  rewrite (getReply_chat_branch (served S base) query history w w' allIncidents Hq);
    [| | exact Hfetch].
  - simpl. apply f_equal. apply Hcall.
  - unfold entitiesOf, served, Llm.extractEntities. simpl. rewrite Hcall, Hparse. reflexivity.
Qed.

Lemma served_model_down_witness :
  fst (getReply (served serviceDown feedDown) "Any jams on the A2?" noMessages worldCached) =
  Returned Llm.unreachable.
Proof.
  apply (served_model_down serviceDown feedDown "Any jams on the A2?" noMessages worldCached
           (recorded (extraction "Any jams on the A2?" noMessages) worldCached)
           [a2Accident; a2Construction; a4Jam]).
  - split; [discriminate | vm_compute; reflexivity].
  - intros r. reflexivity.
  - reflexivity.
  - vm_compute. reflexivity.
Defined.

Lemma filter_none_in {A : Type} (P : A -> Prop) `{forall x, Decision (P x)} (l : list A) :
  (forall x, x ∈ l -> ~ P x) -> filter P l = [].
Proof.
  induction l as [|x l IH]; intros HP; [reflexivity|].
  rewrite filter_cons_False by (apply HP; apply list_elem_of_here).
  apply IH. intros y Hy. apply HP. apply list_elem_of_further. exact Hy.
Qed.

(** X21.  When roads were extracted, no category was, and no incident of the
    feed is on one of those roads, the reply is the fixed sentence that
    quotes the trimmed query and names the roads as extracted, joined by
    "and", whatever the model would say to a request for an answer. *)
Theorem served_no_incident_on_roads (S : Llm.Service) (base : Env) (query : string)
    (history : list TMessage) (w w' : World) (allIncidents : list Clean.t) :
  reachesModel query ->
  let e := entitiesOf (served S base) query history in
  nonEmptyList (roads e) = true ->
  nonEmptyList (categories e) = false ->
  (forall i, i ∈ allIncidents -> ~ roadSelected e i) ->
  fetchIncidents (served S base) (recorded (extraction query history) w)
    = (Returned allIncidents, w') ->
  fst (getReply (served S base) query history w) =
  Returned
    ("I couldn't find any reported incidents for your request about " +:+ Llm.quote
     +:+ JS.trim query +:+ Llm.quote +:+ " on " +:+ Llm.join " and " (orEmpty (roads e))
     +:+ " at this time. The route appears clear. However, I can check for all types of incidents on "
     +:+ Llm.join " and " (orEmpty (roads e)) +:+ ".").
Proof.
  intros Hq e Hr Hc Hnone Hfetch.
  rewrite (getReply_answers (served S base) query history w allIncidents w' Hq);
    [| fold e; rewrite (nonEmptyList_present _ Hr); reflexivity | exact Hfetch].
  fold e. cbn [fst llmAnswer served].
  assert (Hempty : filter (fun i => roadSelected e i /\ categorySelected e i) allIncidents = []).
  { apply filter_none_in. intros i Hi [H _]. exact (Hnone i Hi H). }
  rewrite Hempty. unfold Llm.answerFromIncidents. rewrite Hr, Hc. reflexivity.
Qed.

Lemma served_no_incident_on_roads_witness :
  fst (getReply (served (serviceEcho a13Asked) feedDown) "How busy is the A13?" noMessages
         worldCached) =
  Returned
    ("I couldn't find any reported incidents for your request about " +:+ Llm.quote
     +:+ "How busy is the A13?" +:+ Llm.quote +:+ " on A13 and n57"
     +:+ " at this time. The route appears clear. However, I can check for all types of incidents on "
     +:+ "A13 and n57" +:+ ".").
Proof.
  apply (served_no_incident_on_roads (serviceEcho a13Asked) feedDown "How busy is the A13?"
           noMessages worldCached
           (recorded (extraction "How busy is the A13?" noMessages) worldCached)
           [a2Accident; a2Construction; a4Jam]).
  - split; [discriminate | vm_compute; reflexivity].
  - reflexivity.
  - reflexivity.
  - intros i Hi.
    apply elem_of_cons in Hi as [-> | Hi].
    { apply (bool_decide_eq_false_1 (roadSelected _ _)). vm_compute. reflexivity. }
    apply elem_of_cons in Hi as [-> | Hi].
    { apply (bool_decide_eq_false_1 (roadSelected _ _)). vm_compute. reflexivity. }
    apply elem_of_cons in Hi as [-> | Hi].
    { apply (bool_decide_eq_false_1 (roadSelected _ _)). vm_compute. reflexivity. }
    apply elem_of_nil in Hi. contradiction.
  - vm_compute. reflexivity.
Defined.
